(** * Pattern-Matching Paths: a shallow embedding of [pattern_matcher.py]

    The program reads a list of comma-delimited patterns and a list of
    slash-delimited paths and prints, for each path, the best matching
    pattern or the text NO MATCH.  The functions below follow the Python
    source function by function; Python lists of strings are [list string],
    Python's [None] is [option]'s [None], a raised exception is an explicit
    constructor of [result]. *)

From Stdlib Require Import String Ascii List Bool Arith Lia ZArith.
Import ListNotations.
Open Scope string_scope.

(** ** Module-level constants *)

Definition WILDCARD : string := "*".
Definition PATTERN_DELIMITER : ascii := ","%char.
Definition PATH_DELIMITER : ascii := "/"%char.

(** ** The two [str] methods the program uses

    Both are only ever called with a one-character argument, which is an
    [ascii] here. *)

Module Str.

(** [s.lstrip(d)]: drop the leading run of [d]. *)
Fixpoint lstrip (d : ascii) (s : string) : string :=
  match s with
  | EmptyString => EmptyString
  | String c s' => if Ascii.eqb c d then lstrip d s' else s
  end.

(** [s.rstrip(d)]: drop the trailing run of [d]. *)
Fixpoint rstrip (d : ascii) (s : string) : string :=
  match s with
  | EmptyString => EmptyString
  | String c s' =>
      match rstrip d s' with
      | EmptyString => if Ascii.eqb c d then EmptyString else String c EmptyString
      | r => String c r
      end
  end.

(** [s.strip(d)] *)
Definition strip (d : ascii) (s : string) : string := rstrip d (lstrip d s).

(** [s.split(d)]: cut at every occurrence of [d]; adjacent delimiters
    give empty fields and the empty string gives one empty field. *)
Fixpoint split (d : ascii) (s : string) : list string :=
  match s with
  | EmptyString => [EmptyString]
  | String c s' =>
      if Ascii.eqb c d then EmptyString :: split d s'
      else match split d s' with
           | f :: fs => String c f :: fs
           | [] => [String c EmptyString]
           end
  end.

(** [d.join(l)] *)
Definition join (d : ascii) (l : list string) : string :=
  String.concat (String d EmptyString) l.

(** [d * n], a run of [n] delimiters. *)
Fixpoint rep (d : ascii) (n : nat) : string :=
  match n with
  | O => EmptyString
  | S n' => String d (rep d n')
  end.

(** [c in s] for a character. *)
Fixpoint has_char (c : ascii) (s : string) : bool :=
  match s with
  | EmptyString => false
  | String a s' => Ascii.eqb a c || has_char c s'
  end.

End Str.

(** The expression [x.strip(d).split(d)] of [find_match] (lines 79 and
    85-86): the field splitter. *)
Definition split_fields (d : ascii) (s : string) : list string :=
  Str.split d (Str.strip d s).

(** [to_string]: a list as a comma separated string. *)
Definition to_string (list_value : list string) : string :=
  Str.join PATTERN_DELIMITER list_value.

(** ** Exceptions

    [Raise e] is an uncaught Python exception leaving the function. *)

Inductive exn : Type := IndexError | ValueError | TypeError.

Inductive result (A : Type) : Type :=
| Ok (a : A)
| Raise (e : exn).
Arguments Ok {A} a.
Arguments Raise {A} e.

Definition bind {A B : Type} (r : result A) (k : A -> result B) : result B :=
  match r with
  | Ok a => k a
  | Raise e => Raise e
  end.

Notation "x <- r ;; k" := (bind r (fun x => k))
  (at level 61, r at next level, right associativity).

(** ** List operations of the Python run time *)

(** [l.count(x)] on a list of strings. *)
Definition count (x : string) (l : list string) : nat :=
  count_occ string_dec l x.

(** [x in l] on a list of strings. *)
Definition contains (x : string) (l : list string) : bool :=
  existsb (String.eqb x) l.

(** [a == b] on lists of strings. *)
Definition fields_eqb (a b : list string) : bool :=
  if list_eq_dec string_dec a b then true else false.

(** [map(eq, xs, ys)]: Python 2's [map] pads the shorter list with [None],
    and a string never equals [None]. *)
Fixpoint map_eq (xs ys : list string) : list bool :=
  match xs, ys with
  | [], _ => map (fun _ => false) ys
  | _, [] => map (fun _ => false) xs
  | x :: xs', y :: ys' => String.eqb x y :: map_eq xs' ys'
  end.

(** [enumerate(l)] *)
Definition enumerate (l : list string) : list (nat * string) :=
  combine (seq 0 (List.length l)) l.

(** ** [is_potential_match] *)

Definition is_potential_match (path_fields pattern_fields : list string) : bool :=
  let num_wildcards := count WILDCARD pattern_fields in
  let num_field_matches := count_occ bool_dec (map_eq path_fields pattern_fields) true in
  if ((num_field_matches + num_wildcards) =? List.length path_fields)%nat then true else false.

(** ** [resolve_tie] *)

(** [sum([i for i, v in enumerate(pattern) if v == WILDCARD])] *)
Definition index_sum (pattern : list string) : nat :=
  list_sum (map fst (filter (fun iv => String.eqb (snd iv) WILDCARD) (enumerate pattern))).

(** The [for] loop of [resolve_tie], on the state [(winner, highest_score)]. *)
Fixpoint resolve_tie_loop (pattern_fields : list (list string))
    (winner : option (list string)) (highest_score : option nat)
    : option (list string) :=
  match pattern_fields with
  | [] => winner
  | pattern :: rest =>
      match highest_score with
      | None => resolve_tie_loop rest (Some pattern) (Some (index_sum pattern))
      | Some score =>
          if (score <? index_sum pattern)%nat
          then resolve_tie_loop rest (Some pattern) (Some (index_sum pattern))
          else resolve_tie_loop rest winner highest_score
      end
  end.

Definition resolve_tie (pattern_fields : list (list string)) : option (list string) :=
  resolve_tie_loop pattern_fields None None.

(** ** [get_best_potential_match] *)

(** The [for] loop of [get_best_potential_match], on the state
    [(fewest_wildcards, wildcard_counter)].  The first-entry test
    [if not wildcard_counter] holds for [None] and for [0]. *)
Fixpoint fewest_loop (potential_matches : list (list string))
    (fewest_wildcards : list (list string)) (wildcard_counter : option nat)
    : list (list string) * option nat :=
  match potential_matches with
  | [] => (fewest_wildcards, wildcard_counter)
  | m :: rest =>
      let num_wildcards := count WILDCARD m in
      match wildcard_counter with
      | None | Some 0 =>
          fewest_loop rest (fewest_wildcards ++ [m])%list (Some num_wildcards)
      | Some counter =>
          if (num_wildcards <? counter)%nat
          then fewest_loop rest [m] (Some num_wildcards)
          else if (num_wildcards =? counter)%nat
               then fewest_loop rest (fewest_wildcards ++ [m])%list wildcard_counter
               else fewest_loop rest fewest_wildcards wildcard_counter
      end
  end.

Definition get_best_potential_match (potential_matches : list (list string))
    : option (list string) :=
  let fewest_wildcards := fst (fewest_loop potential_matches [] None) in
  if (List.length fewest_wildcards =? 1)%nat
  then nth_error fewest_wildcards 0
  else resolve_tie fewest_wildcards.

(** ** [find_match] *)

(** The [for] loop of [find_match]: the pair [(exact_match,
    potential_matches)] at loop exit; [break] is the return from the
    exact-match branch. *)
Fixpoint scan (path_fields : list string) (patterns : list string)
    (potential_matches : list (list string))
    : option (list string) * list (list string) :=
  match patterns with
  | [] => (None, potential_matches)
  | pattern :: rest =>
      let pattern_fields := split_fields PATTERN_DELIMITER pattern in
      if fields_eqb path_fields pattern_fields
      then (Some pattern_fields, potential_matches)
      else if (List.length path_fields =? List.length pattern_fields)%nat
              && contains WILDCARD pattern_fields
           then if is_potential_match path_fields pattern_fields
                then scan path_fields rest (potential_matches ++ [pattern_fields])%list
                else scan path_fields rest potential_matches
           else scan path_fields rest potential_matches
  end.

(** Truth value of [exact_match]: [None] and the empty list are false. *)
Definition truthy (exact_match : option (list string)) : bool :=
  match exact_match with
  | Some (_ :: _) => true
  | _ => false
  end.

(** [to_string(x)] where [x] may be [None]: [','.join(None)] raises. *)
Definition to_string_opt (x : option (list string)) : result string :=
  match x with
  | Some l => Ok (to_string l)
  | None => Raise TypeError
  end.

Definition NO_MATCH : string := "NO MATCH".

Definition find_match (path : string) (patterns : list string) : result string :=
  let path_fields := split_fields PATH_DELIMITER path in
  let '(exact_match, potential_matches) := scan path_fields patterns [] in
  if truthy exact_match then to_string_opt exact_match
  else match potential_matches with
       | _ :: _ =>
           if (List.length potential_matches =? 1)%nat
           then to_string_opt (nth_error potential_matches 0)
           else to_string_opt (get_best_potential_match potential_matches)
       | [] => Ok NO_MATCH
       end.

(** ** [main] *)

Section Main.
(** The built-in [int] on a string ([None]: it raises [ValueError]) and
    the platform bound [sys.maxint] on the argument of [islice]. *)
Variable int : string -> option Z.
Variable maxint : Z.

Definition newline : ascii := "010"%char.

(** [islice(inputs, stop)] drained to the end: the items taken and the
    rest of the generator.  A [stop] outside [0 .. maxint] raises. *)
Definition islice (inputs : list string) (stop : Z)
    : result (list string * list string) :=
  if ((0 <=? stop) && (stop <=? maxint))%Z
  then Ok (firstn (Z.to_nat stop) inputs, skipn (Z.to_nat stop) inputs)
  else Raise ValueError.

(** [int(list(islice(inputs, 1))[0])] *)
Definition read_count (inputs : list string) : result (Z * list string) :=
  taken <- islice inputs 1 ;;
  match fst taken with
  | [] => Raise IndexError
  | line :: _ =>
      match int line with
      | Some n => Ok (n, snd taken)
      | None => Raise ValueError
      end
  end.

(** Lines 45-56: the pattern list and the path lines. *)
Definition read_input (stdin : list string) : result (list string * list string) :=
  let inputs := map (Str.rstrip newline) stdin in
  counted <- read_count inputs ;;
  sliced <- islice (snd counted) (fst counted) ;;
  let patterns := fst sliced in
  counted' <- read_count (snd sliced) ;;
  paths <- islice (snd counted') (fst counted') ;;
  Ok (patterns, fst paths).

(** Lines 58-59: what is printed, and the exception that ended the loop
    if one did. *)
Fixpoint print_loop (paths patterns : list string) : list string * option exn :=
  match paths with
  | [] => ([], None)
  | path :: rest =>
      match find_match path patterns with
      | Ok line => let '(out, e) := print_loop rest patterns in (line :: out, e)
      | Raise e => ([], Some e)
      end
  end.

(** The lines written to standard output and the uncaught exception. *)
Definition main (stdin : list string) : list string * option exn :=
  match read_input stdin with
  | Ok (patterns, paths) => print_loop paths patterns
  | Raise e => ([], Some e)
  end.

End Main.

(** ** Notions used to state the properties *)

(** The guard of the [elif] branch of [find_match] together with the test
    inside it: the pattern fields that are appended to
    [potential_matches]. *)
Definition is_candidate (path_fields pattern_fields : list string) : bool :=
  (List.length path_fields =? List.length pattern_fields)%nat
  && contains WILDCARD pattern_fields
  && is_potential_match path_fields pattern_fields.

(** Number of wildcard fields of a candidate. *)
Definition wildcards (m : list string) : nat := count WILDCARD m.

(** Least wildcard count among [k] and the candidates of [l]. *)
Definition least (k : nat) (l : list (list string)) : nat :=
  fold_left Nat.min (map wildcards l) k.

(** The truth value of [not wildcard_counter]. *)
Definition first_entry (wildcard_counter : option nat) : bool :=
  match wildcard_counter with
  | None | Some 0 => true
  | Some _ => false
  end.

(** Position of the leftmost wildcard, the notion the docstring of
    [resolve_tie] speaks of and its code does not compute. *)
Fixpoint leftmost_wildcard (pattern : list string) : option nat :=
  match pattern with
  | [] => None
  | v :: rest =>
      if String.eqb v WILDCARD then Some 0
      else option_map S (leftmost_wildcard rest)
  end.

(** Position-wise eligibility: each pattern field equals the path field or
    is the wildcard. *)
Definition field_ok (path_field pattern_field : string) : Prop :=
  path_field = pattern_field \/ pattern_field = WILDCARD.

(** No pattern of the list has exactly the path's fields. *)
Definition no_exact_match (path_fields : list string) (patterns : list string) : Prop :=
  forall p, In p patterns -> split_fields PATTERN_DELIMITER p <> path_fields.

(** No pattern of the list is a wildcard candidate for the path. *)
Definition no_candidate (path_fields : list string) (patterns : list string) : Prop :=
  forall p, In p patterns ->
    is_candidate path_fields (split_fields PATTERN_DELIMITER p) = false.

(** An instance of [int] for the examples: unsigned decimal literals. *)
Fixpoint decimal_digits (s : string) (acc : Z) : option Z :=
  match s with
  | EmptyString => Some acc
  | String c s' =>
      let n := nat_of_ascii c in
      if ((48 <=? n) && (n <=? 57))%nat
      then decimal_digits s' (10 * acc + Z.of_nat (n - 48))%Z
      else None
  end.

Definition decimal_int (s : string) : option Z :=
  match s with
  | EmptyString => None
  | _ => decimal_digits s 0%Z
  end.

(** No pattern of the list is wildcard-eligible for the path, position by
    position: none holds a wildcard field and has, at every position, the
    path's field or the wildcard. *)
Definition no_eligible_candidate (path_fields : list string) (patterns : list string)
    : Prop :=
  forall p, In p patterns ->
    ~ (In WILDCARD (split_fields PATTERN_DELIMITER p)
       /\ Forall2 field_ok path_fields (split_fields PATTERN_DELIMITER p)).

(** [s.count(c)] for a character. *)
Fixpoint count_char (c : ascii) (s : string) : nat :=
  match s with
  | EmptyString => 0
  | String a s' => (if Ascii.eqb a c then 1 else 0) + count_char c s'
  end.

(** Number of positions at which the pattern field equals the path field or
    is the wildcard. *)
Definition ok_count (path_fields pattern_fields : list string) : nat :=
  List.length
    (filter (fun ab => String.eqb (fst ab) (snd ab) || String.eqb (snd ab) WILDCARD)
       (combine path_fields pattern_fields)).

(** Number of positions at which both the path field and the pattern field
    are the wildcard token. *)
Definition both_wild_count (path_fields pattern_fields : list string) : nat :=
  List.length
    (filter (fun ab => String.eqb (fst ab) WILDCARD && String.eqb (snd ab) WILDCARD)
       (combine path_fields pattern_fields)).

(** A count line that stops [main]: [int] raises on it, or [islice] refuses
    its value. *)
Definition rejected (int : string -> option Z) (maxint : Z) (line : string) : Prop :=
  int line = None
  \/ exists n, int line = Some n /\ (n < 0 \/ maxint < n)%Z.

(** ** Facts about the string methods *)

Section StrFacts.
Variable d : ascii.

Lemma append_empty_r (s : string) : s ++ "" = s.
Proof. induction s; simpl; congruence. Qed.

Lemma lstrip_rep (n : nat) (s : string) :
  Str.lstrip d (Str.rep d n ++ s) = Str.lstrip d s.
Proof. induction n; simpl; [reflexivity|]. now rewrite Ascii.eqb_refl. Qed.

Lemma rstrip_rep_nil (n : nat) : Str.rstrip d (Str.rep d n) = "".
Proof. induction n; simpl; [reflexivity|]. now rewrite IHn, Ascii.eqb_refl. Qed.

Lemma rstrip_rep (n : nat) (s : string) :
  Str.rstrip d (s ++ Str.rep d n) = Str.rstrip d s.
Proof.
  induction s as [|c s IH]; simpl.
  - apply rstrip_rep_nil.
  - now rewrite IH.
Qed.

Lemma strip_rep_r (n : nat) (s : string) :
  Str.strip d (s ++ Str.rep d n) = Str.strip d s.
Proof.
  unfold Str.strip. induction s as [|c s IH]; simpl.
  - rewrite <- (append_empty_r (Str.rep d n)), lstrip_rep. reflexivity.
  - destruct (Ascii.eqb c d); [exact IH|].
    apply (rstrip_rep n (String c s)).
Qed.

Lemma strip_rep (i j : nat) (s : string) :
  Str.strip d (Str.rep d i ++ s ++ Str.rep d j) = Str.strip d s.
Proof.
  rewrite <- strip_rep_r with (n := j) (s := s).
  unfold Str.strip. now rewrite lstrip_rep.
Qed.

(** [lstrip] removes a run of [d] and what is left does not start with [d]. *)
Lemma lstrip_spec (s : string) :
  exists i, s = Str.rep d i ++ Str.lstrip d s
            /\ (forall t, Str.lstrip d s <> String d t).
Proof.
  induction s as [|c s [i [E N]]]; simpl.
  - exists 0. split; [reflexivity|discriminate].
  - destruct (Ascii.eqb c d) eqn:Hc.
    + apply Ascii.eqb_eq in Hc; subst c.
      exists (S i). simpl. split; [congruence|exact N].
    + exists 0. split; [reflexivity|].
      intros t H. injection H as H _. subst c.
      now rewrite Ascii.eqb_refl in Hc.
Qed.

(** [rstrip] removes a run of [d] and what is left does not end with [d]. *)
Lemma rstrip_spec (s : string) :
  exists j, s = Str.rstrip d s ++ Str.rep d j
            /\ (forall t, Str.rstrip d s <> t ++ String d "").
Proof.
  induction s as [|c s [j [E N]]]; simpl.
  - exists 0. split; [reflexivity|]. intros [|a t]; discriminate.
  - destruct (Str.rstrip d s) as [|a r] eqn:Hr.
    + destruct (Ascii.eqb c d) eqn:Hc.
      * apply Ascii.eqb_eq in Hc; subst c.
        exists (S j). simpl in *. split; [congruence|].
        intros [|a t]; discriminate.
      * exists j. simpl in *. split; [congruence|].
        intros [|a [|b t]] H; simpl in H; try discriminate.
        injection H as H. subst c. now rewrite Ascii.eqb_refl in Hc.
    + exists j. split; [simpl in *; congruence|].
      intros [|b t] H; simpl in H; [discriminate|].
      injection H as _ H. exact (N t H).
Qed.

Lemma rstrip_keeps_head (s : string) (t : string) :
  (forall u, s <> String d u) -> Str.rstrip d s <> String d t.
Proof.
  destruct s as [|c s]; simpl; [discriminate|].
  intros N. destruct (Str.rstrip d s).
  - destruct (Ascii.eqb c d) eqn:Hc; [discriminate|].
    intros H. injection H as H _. subst c. now rewrite Ascii.eqb_refl in Hc.
  - intros H. injection H as H _. subst c. exact (N s eq_refl).
Qed.

Lemma split_not_nil (s : string) : Str.split d s <> [].
Proof.
  induction s as [|c s IH]; simpl; [discriminate|].
  destruct (Ascii.eqb c d); [discriminate|].
  destruct (Str.split d s); discriminate.
Qed.

Lemma join_cons (x y : string) (l : list string) :
  Str.join d (x :: y :: l) = x ++ String d (Str.join d (y :: l)).
Proof. reflexivity. Qed.

Lemma join_split (s : string) : Str.join d (Str.split d s) = s.
Proof.
  induction s as [|c s IH]; simpl; [reflexivity|].
  destruct (Ascii.eqb c d) eqn:Hc.
  - apply Ascii.eqb_eq in Hc; subst c.
    destruct (Str.split d s) eqn:Hs; [now apply split_not_nil in Hs|].
    rewrite join_cons, IH. reflexivity.
  - destruct (Str.split d s) as [|f fs] eqn:Hs; [now apply split_not_nil in Hs|].
    destruct fs as [|g fs].
    + unfold Str.join in *. simpl in *. congruence.
    + rewrite join_cons in *. simpl. congruence.
Qed.

Lemma split_no_delim (s : string) :
  Forall (fun f => Str.has_char d f = false) (Str.split d s).
Proof.
  induction s as [|c s IH]; simpl.
  - constructor; [reflexivity|constructor].
  - destruct (Ascii.eqb c d) eqn:Hc.
    + constructor; [reflexivity|exact IH].
    + destruct (Str.split d s) as [|f fs];
        [constructor; [simpl; now rewrite Hc|constructor]|].
      inversion IH; subst. constructor; [|assumption].
      simpl. now rewrite Hc.
Qed.

End StrFacts.

(** ** The field splitter *)

Lemma strip_decompose (d : ascii) (s : string) :
  exists i j, s = Str.rep d i ++ Str.strip d s ++ Str.rep d j.
Proof.
  destruct (lstrip_spec d s) as [i [Ei _]].
  destruct (rstrip_spec d (Str.lstrip d s)) as [j [Ej _]].
  exists i, j. unfold Str.strip. now rewrite <- Ej.
Qed.

Lemma strip_no_leading (d : ascii) (s t : string) : Str.strip d s <> String d t.
Proof.
  unfold Str.strip. apply rstrip_keeps_head.
  destruct (lstrip_spec d s) as [i [_ N]]. exact N.
Qed.

Lemma strip_no_trailing (d : ascii) (s t : string) :
  Str.strip d s <> t ++ String d "".
Proof.
  unfold Str.strip.
  destruct (rstrip_spec d (Str.lstrip d s)) as [j [_ N]]. apply N.
Qed.

(** C7. The field splitter removes exactly the leading and the trailing run
    of the delimiter (what is left neither starts nor ends with it, and the
    input is that remainder between two runs), then cuts the remainder at
    every delimiter (joining the fields gives the remainder back and no field
    contains the delimiter).  Surrounding delimiters therefore do not change
    the fields: [/a/b/c/] and [a/b/c] give [a; b; c], and so do [,a,b,c,] and
    [a,b,c].  A string that is empty after stripping gives the one-element
    list holding the empty string. *)
Theorem split_fields_strips_and_splits (d : ascii) (s : string) :
  (exists i j, s = Str.rep d i ++ Str.strip d s ++ Str.rep d j)
  /\ (forall t, Str.strip d s <> String d t)
  /\ (forall t, Str.strip d s <> t ++ String d "")
  /\ Str.join d (split_fields d s) = Str.strip d s
  /\ Forall (fun f => Str.has_char d f = false) (split_fields d s)
  /\ (forall i j, split_fields d (Str.rep d i ++ s ++ Str.rep d j) = split_fields d s)
  /\ split_fields PATH_DELIMITER "/a/b/c/" = ["a"; "b"; "c"]
  /\ split_fields PATH_DELIMITER "a/b/c" = ["a"; "b"; "c"]
  /\ split_fields PATTERN_DELIMITER ",a,b,c," = ["a"; "b"; "c"]
  /\ split_fields PATTERN_DELIMITER "a,b,c" = ["a"; "b"; "c"]
  /\ (Str.strip d s = "" -> split_fields d s = [""]).
Proof.
  repeat split; try reflexivity.
  - apply strip_decompose.
  - apply strip_no_leading.
  - apply strip_no_trailing.
  - apply join_split.
  - apply split_no_delim.
  - intros i j. unfold split_fields. now rewrite strip_rep.
  - intros E. unfold split_fields. now rewrite E.
Qed.

Lemma split_fields_strips_and_splits_witness :
  Str.strip PATH_DELIMITER "///" = "" /\ split_fields PATH_DELIMITER "///" = [""].
Proof.
  split; [reflexivity|].
  apply (split_fields_strips_and_splits PATH_DELIMITER "///"). reflexivity.
Defined.

(** ** Wildcard eligibility *)

Section Eligibility.

Lemma is_potential_match_unfold (path_fields pattern_fields : list string) :
  is_potential_match path_fields pattern_fields = true
  <-> count_occ bool_dec (map_eq path_fields pattern_fields) true
      + count WILDCARD pattern_fields = List.length path_fields.
Proof.
  unfold is_potential_match.
  destruct (Nat.eqb_spec
    (count_occ bool_dec (map_eq path_fields pattern_fields) true
     + count WILDCARD pattern_fields) (List.length path_fields)).
  - tauto.
  - split; [discriminate|contradiction].
Qed.

(** With no wildcard in the path, a position is counted at most once, so
    the two counts add up to the number of positions that are fine. *)
Lemma counts_bound (path_fields : list string) :
  ~ In WILDCARD path_fields ->
  forall pattern_fields,
    List.length path_fields = List.length pattern_fields ->
    count_occ bool_dec (map_eq path_fields pattern_fields) true
    + count WILDCARD pattern_fields <= List.length path_fields
    /\ (count_occ bool_dec (map_eq path_fields pattern_fields) true
        + count WILDCARD pattern_fields = List.length path_fields
        <-> Forall2 field_ok path_fields pattern_fields).
Proof.
  induction path_fields as [|x xs IH]; intros Hx [|y ys] Hl;
    try discriminate Hl.
  - simpl. split; [lia|]. split; [constructor|reflexivity].
  - assert (Hxs : ~ In WILDCARD xs) by (intros H; apply Hx; now right).
    assert (Hxw : x <> WILDCARD) by (intros H; apply Hx; now left).
    injection Hl as Hl. destruct (IH Hxs ys Hl) as [Hle Hiff].
    unfold count in *. cbn [map_eq count_occ List.length].
    destruct (String.eqb_spec x y) as [Exy|Nxy].
    + subst y. destruct (string_dec x WILDCARD) as [E|_]; [contradiction|].
      destruct (bool_dec true true) as [_|N]; [|now destruct N].
      split; [lia|]. split.
      * intros H. constructor; [now left|]. apply Hiff. lia.
      * intros H. inversion H; subst. apply Hiff in H5. lia.
    + destruct (bool_dec false true) as [E|_]; [discriminate|].
      destruct (string_dec y WILDCARD) as [Eyw|Nyw].
      * split; [lia|]. split.
        -- intros H. constructor; [now right|]. apply Hiff. lia.
        -- intros H. inversion H; subst. apply Hiff in H5. lia.
      * split; [lia|]. split.
        -- intros H. lia.
        -- intros H. inversion H; subst.
           destruct H3 as [E|E]; [now destruct Nxy|now destruct Nyw].
Qed.

End Eligibility.

(** C4. For path fields and pattern fields of equal length, when no path
    field is the wildcard token, [is_potential_match] answers [True] exactly
    when at every position the path field equals the pattern field or the
    pattern field is the wildcard: the counting formula (equal positions plus
    wildcard fields equals the number of fields) and the position-wise
    condition agree. *)
Theorem is_potential_match_positionwise (path_fields pattern_fields : list string) :
  List.length path_fields = List.length pattern_fields ->
  ~ In WILDCARD path_fields ->
  (is_potential_match path_fields pattern_fields = true
   <-> Forall2 field_ok path_fields pattern_fields)
  /\ (count_occ bool_dec (map_eq path_fields pattern_fields) true
      + count WILDCARD pattern_fields = List.length path_fields
      <-> Forall2 field_ok path_fields pattern_fields).
Proof.
  intros Hl Hw. destruct (counts_bound path_fields Hw pattern_fields Hl) as [_ H].
  split; [|exact H]. rewrite is_potential_match_unfold. exact H.
Qed.

Lemma is_potential_match_positionwise_witness :
  is_potential_match ["a"; "b"; "c"] ["a"; "*"; "c"] = true
  <-> Forall2 field_ok ["a"; "b"; "c"] ["a"; "*"; "c"].
Proof.
  apply (is_potential_match_positionwise ["a"; "b"; "c"] ["a"; "*"; "c"]).
  - reflexivity.
  - unfold WILDCARD. simpl. intros [H|[H|[H|[]]]]; discriminate H.
Defined.

(** ** The best-match resolver *)

Section Resolver.

Lemma least_le_start (l : list (list string)) :
  forall k, least k l <= k.
Proof.
  unfold least. induction l as [|m l IH]; intros k; simpl; [lia|].
  specialize (IH (Nat.min k (wildcards m))). lia.
Qed.

Lemma least_le_elem (l : list (list string)) :
  forall k x, In x l -> least k l <= wildcards x.
Proof.
  induction l as [|m l IH]; intros k x []; unfold least in *; simpl.
  - subst m. pose proof (least_le_start l (Nat.min k (wildcards x))) as H.
    unfold least in H. lia.
  - now apply IH.
Qed.

Lemma least_lower_bound (l : list (list string)) :
  forall k b, b <= k -> (forall x, In x l -> b <= wildcards x) -> b <= least k l.
Proof.
  unfold least. induction l as [|m l IH]; intros k b Hk Hl; simpl; [exact Hk|].
  apply IH.
  - specialize (Hl m (or_introl eq_refl)). lia.
  - intros x Hx. apply Hl. now right.
Qed.

Lemma least_cons (m : list string) (l : list (list string)) (k : nat) :
  least k (m :: l) = least (Nat.min k (wildcards m)) l.
Proof. reflexivity. Qed.

Lemma filter_none {A : Type} (f : A -> bool) (l : list A) :
  (forall x, In x l -> f x = false) -> filter f l = [].
Proof.
  induction l as [|a l IH]; intros H; simpl; [reflexivity|].
  rewrite (H a (or_introl eq_refl)). apply IH. intros x Hx. apply H. now right.
Qed.

Lemma filter_all {A : Type} (f : A -> bool) (l : list A) :
  (forall x, In x l -> f x = true) -> filter f l = l.
Proof.
  induction l as [|a l IH]; intros H; simpl; [reflexivity|].
  rewrite (H a (or_introl eq_refl)). f_equal. apply IH.
  intros x Hx. apply H. now right.
Qed.

(** Once the counter holds a positive number, the loop keeps the
    candidates whose wildcard count is the least one seen. *)
Lemma fewest_loop_running (l : list (list string)) :
  Forall (fun m => 1 <= wildcards m) l ->
  forall few k,
    1 <= k ->
    Forall (fun m => wildcards m = k) few ->
    fewest_loop l few (Some k)
    = (filter (fun m => (wildcards m =? least k l)%nat) (few ++ l)%list,
       Some (least k l)).
Proof.
  induction 1 as [|m l Hm Hl IH]; intros few k Hk Hfew.
  - unfold least. simpl. rewrite app_nil_r. f_equal.
    symmetry. apply filter_all. intros x Hx.
    rewrite Forall_forall in Hfew. apply Nat.eqb_eq. now apply Hfew.
  - cbn [fewest_loop]. fold (wildcards m).
    destruct k as [|k']; [lia|]. rewrite least_cons.
    destruct (Nat.ltb_spec (wildcards m) (S k')) as [Hlt|Hge].
    + rewrite (IH [m] (wildcards m) Hm) by (constructor; [reflexivity|constructor]).
      replace (Nat.min (S k') (wildcards m)) with (wildcards m) by lia.
      f_equal. rewrite (filter_app _ few (m :: l)).
      rewrite (filter_none _ few); [reflexivity|].
      intros x Hx. rewrite Forall_forall in Hfew. apply Nat.eqb_neq.
      rewrite (Hfew x Hx).
      pose proof (least_le_start l (wildcards m)). lia.
    + replace (Nat.min (S k') (wildcards m)) with (S k') by lia.
      destruct (Nat.eqb_spec (wildcards m) (S k')) as [Heq|Hne].
      * rewrite (IH (few ++ [m])%list (S k') Hk).
        -- f_equal. rewrite <- app_assoc. reflexivity.
        -- apply Forall_app. split; [exact Hfew|]. now constructor.
      * rewrite (IH few (S k') Hk Hfew). f_equal.
        rewrite !filter_app. f_equal. cbn [filter].
        destruct (Nat.eqb_spec (wildcards m) (least (S k') l)) as [E|_];
          [|reflexivity].
        pose proof (least_le_start l (S k')). lia.
Qed.

(** The whole loop on candidates that all hold a wildcard. *)
Lemma fewest_loop_spec (m : list string) (l : list (list string)) :
  Forall (fun c => 1 <= wildcards c) (m :: l) ->
  fewest_loop (m :: l) [] None
  = (filter (fun c => (wildcards c =? least (wildcards m) l)%nat) (m :: l),
     Some (least (wildcards m) l)).
Proof.
  intros H. inversion H as [|? ? Hm Hl]; subst.
  cbn [fewest_loop app]. fold (wildcards m).
  rewrite (fewest_loop_running l Hl [m] (wildcards m) Hm)
    by (constructor; [reflexivity|constructor]).
  reflexivity.
Qed.

(** With the winner set, candidates that do not score higher leave it. *)
Lemma resolve_tie_loop_keeps (l : list (list string)) (c : list string) :
  Forall (fun x => index_sum x <= index_sum c) l ->
  resolve_tie_loop l (Some c) (Some (index_sum c)) = Some c.
Proof.
  induction 1 as [|x l Hx Hl IH]; simpl; [reflexivity|].
  destruct (Nat.ltb_spec (index_sum c) (index_sum x)); [lia|exact IH].
Qed.

(** The loop returns the first candidate of highest index sum. *)
Lemma resolve_tie_loop_first_max (l2 : list (list string)) (c : list string) :
  Forall (fun x => index_sum x <= index_sum c) l2 ->
  forall l1 w,
    Forall (fun x => index_sum x < index_sum c) (w :: l1) ->
    resolve_tie_loop (l1 ++ c :: l2)%list (Some w) (Some (index_sum w)) = Some c.
Proof.
  intros H2. induction l1 as [|x l1 IH]; intros w Hw;
    inversion Hw as [|? ? Hwc Hl1]; subst.
  - simpl. destruct (Nat.ltb_spec (index_sum w) (index_sum c)); [|lia].
    now apply resolve_tie_loop_keeps.
  - inversion Hl1 as [|? ? Hxc Hl1']; subst.
    cbn [app resolve_tie_loop].
    destruct (Nat.ltb_spec (index_sum w) (index_sum x)).
    + apply IH. now constructor.
    + apply IH. now constructor.
Qed.

Lemma resolve_tie_first_max (l1 l2 : list (list string)) (c : list string) :
  Forall (fun x => index_sum x < index_sum c) l1 ->
  Forall (fun x => index_sum x <= index_sum c) l2 ->
  resolve_tie (l1 ++ c :: l2)%list = Some c.
Proof.
  intros H1 H2. unfold resolve_tie. destruct l1 as [|w l1].
  - simpl. now apply resolve_tie_loop_keeps.
  - cbn [app resolve_tie_loop]. now apply resolve_tie_loop_first_max.
Qed.

Lemma Forall_filter {A : Type} (P : A -> Prop) (f : A -> bool) (l : list A) :
  (forall x, In x l -> f x = true -> P x) -> Forall P (filter f l).
Proof.
  intros H. apply Forall_forall. intros x Hx.
  apply filter_In in Hx. destruct Hx. now apply H.
Qed.

(** The resolver on candidates that all hold a wildcard: a candidate of
    least wildcard count wins when every earlier candidate of that count
    has a lower index sum and no later one has a higher. *)
Lemma get_best_potential_match_spec (l1 l2 : list (list string)) (c : list string) :
  Forall (fun m => 1 <= wildcards m) (l1 ++ c :: l2)%list ->
  (forall x, In x (l1 ++ l2)%list -> wildcards c <= wildcards x) ->
  (forall x, In x l1 -> wildcards x = wildcards c -> index_sum x < index_sum c) ->
  (forall x, In x l2 -> wildcards x = wildcards c -> index_sum x <= index_sum c) ->
  get_best_potential_match (l1 ++ c :: l2)%list = Some c.
Proof.
  intros Hpos Hmin H1 H2.
  assert (Hall : forall x, In x (l1 ++ c :: l2)%list -> wildcards c <= wildcards x).
  { intros x Hx. apply in_app_or in Hx. destruct Hx as [Hx|[Hx|Hx]].
    - apply Hmin, in_or_app. now left.
    - subst x. lia.
    - apply Hmin, in_or_app. now right. }
  assert (Hc : In c (l1 ++ c :: l2)%list) by (apply in_or_app; right; now left).
  unfold get_best_potential_match.
  destruct (l1 ++ c :: l2)%list as [|m l] eqn:El; [destruct Hc|].
  rewrite (fewest_loop_spec m l Hpos). cbn [fst].
  assert (Hleast : least (wildcards m) l = wildcards c).
  { apply Nat.le_antisymm.
    - destruct Hc as [Hc|Hc].
      + subst m. apply least_le_start.
      + now apply least_le_elem.
    - apply least_lower_bound.
      + apply Hall. now left.
      + intros x Hx. apply Hall. now right. }
  rewrite Hleast, <- El, filter_app. cbn [filter].
  rewrite Nat.eqb_refl.
  set (f1 := filter (fun x => (wildcards x =? wildcards c)%nat) l1).
  set (f2 := filter (fun x => (wildcards x =? wildcards c)%nat) l2).
  assert (R : resolve_tie (f1 ++ c :: f2)%list = Some c).
  { apply resolve_tie_first_max; apply Forall_filter; intros x Hx Hf;
      apply Nat.eqb_eq in Hf; auto. }
  destruct (Nat.eqb_spec (List.length (f1 ++ c :: f2)%list) 1) as [E|_];
    [|exact R].
  destruct f1 as [|a f1]; [reflexivity|].
  rewrite length_app in E. simpl in E. lia.
Qed.

(** Every non-empty prefix leaves a positive counter, the least count. *)
Lemma fewest_loop_counter (m : list string) (l : list (list string)) :
  Forall (fun c => 1 <= wildcards c) (m :: l) ->
  snd (fewest_loop (m :: l) [] None) = Some (least (wildcards m) l)
  /\ 1 <= least (wildcards m) l.
Proof.
  intros H. rewrite (fewest_loop_spec m l H). split; [reflexivity|].
  inversion H; subst. apply least_lower_bound; [assumption|].
  intros x Hx. rewrite Forall_forall in H. apply H. now right.
Qed.

(** Without any assumption the loop keeps a non-empty part of its input. *)
Lemma fewest_loop_keeps (l : list (list string)) :
  forall few wc,
    let few' := fst (fewest_loop l few wc) in
    (forall x, In x few' -> In x few \/ In x l)
    /\ (few <> [] -> few' <> []).
Proof.
  induction l as [|m l IH]; intros few wc; cbn zeta.
  - simpl. split; [intros x Hx; now left|trivial].
  - cbn [fewest_loop].
    assert (Happ : forall x, In x (few ++ [m])%list -> In x few \/ In x (m :: l)).
    { intros x Hx. apply in_app_or in Hx. destruct Hx as [Hx|[Hx|[]]];
        [now left|right; now left]. }
    assert (Hne : (few ++ [m])%list <> []) by (destruct few; discriminate).
    destruct wc as [[|k]|].
    + destruct (IH (few ++ [m])%list (Some (count WILDCARD m))) as [A B].
      split; [|intros _; now apply B].
      intros x Hx. destruct (A x Hx) as [H|H]; [now apply Happ|right; now right].
    + destruct (count WILDCARD m <? S k)%nat.
      * destruct (IH [m] (Some (count WILDCARD m))) as [A B].
        split; [|intros _; apply B; discriminate].
        intros x Hx. destruct (A x Hx) as [[H|[]]|H];
          [right; now left|right; now right].
      * destruct (count WILDCARD m =? S k)%nat.
        -- destruct (IH (few ++ [m])%list (Some (S k))) as [A B].
           split; [|intros _; now apply B].
           intros x Hx. destruct (A x Hx) as [H|H];
             [now apply Happ|right; now right].
        -- destruct (IH few (Some (S k))) as [A B].
           split; [|exact B].
           intros x Hx. destruct (A x Hx) as [H|H]; [now left|right; now right].
    + destruct (IH (few ++ [m])%list (Some (count WILDCARD m))) as [A B].
      split; [|intros _; now apply B].
      intros x Hx. destruct (A x Hx) as [H|H]; [now apply Happ|right; now right].
Qed.

Lemma resolve_tie_loop_member (l : list (list string)) :
  forall w s, exists c,
    resolve_tie_loop l (Some w) (Some s) = Some c /\ (c = w \/ In c l).
Proof.
  induction l as [|x l IH]; intros w s; simpl.
  - exists w. split; [reflexivity|now left].
  - destruct (s <? index_sum x)%nat.
    + destruct (IH x (index_sum x)) as [c [E [H|H]]]; exists c;
        (split; [exact E|right]); [now left|now right].
    + destruct (IH w s) as [c [E [H|H]]]; exists c;
        (split; [exact E|]); [now left|right; now right].
Qed.

(** On any non-empty list the resolver returns one of its elements. *)
Lemma get_best_potential_match_member (l : list (list string)) :
  l <> [] -> exists c, get_best_potential_match l = Some c /\ In c l.
Proof.
  intros Hl. unfold get_best_potential_match.
  destruct l as [|m l]; [contradiction|].
  destruct (fewest_loop_keeps (m :: l) [] None) as [A _].
  assert (B : fst (fewest_loop (m :: l) [] None) <> []).
  { cbn [fewest_loop app].
    destruct (fewest_loop_keeps l [m] (Some (count WILDCARD m))) as [_ B].
    apply B. discriminate. }
  cbn zeta in A.
  destruct (fst (fewest_loop (m :: l) [] None)) as [|a few]; [contradiction|].
  assert (Ha : forall x, In x (a :: few) -> In x (m :: l)).
  { intros x Hx. destruct (A x Hx) as [[]|H]. exact H. }
  destruct (List.length (a :: few) =? 1)%nat.
  - exists a. split; [reflexivity|]. apply Ha. now left.
  - unfold resolve_tie. cbn [resolve_tie_loop].
    destruct (resolve_tie_loop_member few a (index_sum a)) as [c [E H]].
    exists c. split; [exact E|]. apply Ha.
    destruct H; [left; congruence|now right].
Qed.

End Resolver.

(** ** The candidate selector *)

Section Selector.
Variable path_fields : list string.

Local Notation fields := (split_fields PATTERN_DELIMITER).

Lemma fields_eqb_true (a b : list string) : fields_eqb a b = true <-> a = b.
Proof.
  unfold fields_eqb. destruct (list_eq_dec string_dec a b); split;
    congruence || discriminate.
Qed.

Lemma fields_eqb_false (a b : list string) : fields_eqb a b = false <-> a <> b.
Proof.
  unfold fields_eqb. destruct (list_eq_dec string_dec a b); split;
    congruence || discriminate.
Qed.

Lemma split_fields_not_nil (d : ascii) (s : string) : split_fields d s <> [].
Proof. apply split_not_nil. Qed.

(** One step of the loop on a pattern that is not an exact match. *)
Lemma scan_step (pattern : string) (rest : list string) (acc : list (list string)) :
  fields pattern <> path_fields ->
  scan path_fields (pattern :: rest) acc
  = scan path_fields rest
      (acc ++ filter (is_candidate path_fields) [fields pattern])%list.
Proof.
  intros N. cbn [scan filter]. fold (fields pattern).
  assert (E : fields_eqb path_fields (fields pattern) = false)
    by (apply fields_eqb_false; congruence).
  rewrite E. unfold is_candidate.
  destruct ((List.length path_fields =? List.length (fields pattern))%nat
            && contains WILDCARD (fields pattern)); cbn [andb].
  - destruct (is_potential_match path_fields (fields pattern));
      [reflexivity|now rewrite app_nil_r].
  - now rewrite app_nil_r.
Qed.

(** Without an exact match the loop collects the candidates in order. *)
Lemma scan_no_exact (patterns : list string) :
  no_exact_match path_fields patterns ->
  forall acc,
    scan path_fields patterns acc
    = (None, (acc ++ filter (is_candidate path_fields) (map fields patterns))%list).
Proof.
  induction patterns as [|p rest IH]; intros N acc.
  - simpl. now rewrite app_nil_r.
  - rewrite scan_step by (apply N; now left).
    rewrite IH by (intros q Hq; apply N; now right).
    rewrite <- app_assoc, <- filter_app. reflexivity.
Qed.

(** The loop stops at the first exact match. *)
Lemma scan_first_exact (l1 l2 : list string) (p : string) :
  no_exact_match path_fields l1 ->
  fields p = path_fields ->
  forall acc,
    scan path_fields (l1 ++ p :: l2)%list acc
    = (Some (fields p),
       (acc ++ filter (is_candidate path_fields) (map fields l1))%list).
Proof.
  induction l1 as [|q l1 IH]; intros N E acc.
  - cbn [app scan map filter]. fold (fields p).
    assert (T : fields_eqb path_fields (fields p) = true)
      by (apply fields_eqb_true; congruence).
    rewrite T. now rewrite app_nil_r.
  - cbn [app]. rewrite scan_step by (apply N; now left).
    rewrite IH; [|intros r Hr; apply N; now right|exact E].
    rewrite <- app_assoc, <- filter_app. reflexivity.
Qed.

(** Either no pattern is an exact match or there is a first one. *)
Lemma exact_match_decide (patterns : list string) :
  no_exact_match path_fields patterns
  \/ exists l1 p l2,
       patterns = (l1 ++ p :: l2)%list
       /\ no_exact_match path_fields l1
       /\ fields p = path_fields.
Proof.
  induction patterns as [|q rest IH].
  - left. intros p [].
  - destruct (list_eq_dec string_dec (fields q) path_fields) as [E|N].
    + right. exists [], q, rest. repeat split; [|exact E]. intros p [].
    + destruct IH as [IH|[l1 [p [l2 [E [N1 Ep]]]]]].
      * left. intros p [Hp|Hp]; [now subst p|now apply IH].
      * right. exists (q :: l1), p, l2. subst rest. repeat split; [|exact Ep].
        intros r [Hr|Hr]; [now subst r|now apply N1].
Qed.

End Selector.

Lemma contains_wildcards (m : list string) :
  contains WILDCARD m = true <-> 1 <= wildcards m.
Proof.
  unfold contains, wildcards, count. rewrite existsb_exists. split.
  - intros [x [Hx E]]. apply String.eqb_eq in E. subst x.
    now apply (count_occ_In string_dec).
  - intros H. exists WILDCARD. split; [|apply String.eqb_refl].
    now apply (count_occ_In string_dec).
Qed.

Lemma is_candidate_wildcard (path_fields m : list string) :
  is_candidate path_fields m = true ->
  List.length path_fields = List.length m /\ contains WILDCARD m = true.
Proof.
  unfold is_candidate. intros H.
  apply andb_prop in H. destruct H as [H _].
  apply andb_prop in H. destruct H as [Hl Hw].
  apply Nat.eqb_eq in Hl. now split.
Qed.

(** The candidates [find_match] collects for a path. *)
Lemma scan_candidates (path_fields : list string) (patterns : list string) :
  forall acc m,
    In m (snd (scan path_fields patterns acc)) ->
    In m acc
    \/ exists p, In p patterns /\ m = split_fields PATTERN_DELIMITER p
                 /\ is_candidate path_fields m = true.
Proof.
  intros acc m.
  destruct (exact_match_decide path_fields patterns)
    as [N|[l1 [p [l2 [E [N Ep]]]]]].
  - rewrite (scan_no_exact path_fields patterns N). cbn [snd]. intros H.
    apply in_app_or in H. destruct H as [H|H]; [now left|right].
    apply filter_In in H. destruct H as [H C].
    apply in_map_iff in H. destruct H as [p [Ep Hp]].
    exists p. now repeat split.
  - subst patterns. rewrite (scan_first_exact path_fields l1 l2 p N Ep).
    cbn [snd]. intros H.
    apply in_app_or in H. destruct H as [H|H]; [now left|right].
    apply filter_In in H. destruct H as [H C].
    apply in_map_iff in H. destruct H as [q [Eq Hq]].
    exists q. repeat split; [|now symmetry|exact C].
    apply in_or_app. now left.
Qed.

(** What [find_match] returns, by the three ways the loop can end. *)
Lemma find_match_cases (path : string) (patterns : list string) :
  let path_fields := split_fields PATH_DELIMITER path in
  (exists p, In p patterns
             /\ split_fields PATTERN_DELIMITER p = path_fields
             /\ find_match path patterns = Ok (to_string path_fields))
  \/ (no_exact_match path_fields patterns
      /\ exists p, In p patterns
                   /\ is_candidate path_fields (split_fields PATTERN_DELIMITER p) = true
                   /\ find_match path patterns
                      = Ok (to_string (split_fields PATTERN_DELIMITER p)))
  \/ (no_exact_match path_fields patterns
      /\ no_candidate path_fields patterns
      /\ find_match path patterns = Ok NO_MATCH).
Proof.
  intros path_fields. unfold find_match. fold path_fields.
  destruct (exact_match_decide path_fields patterns)
    as [N|[l1 [p [l2 [E [N Ep]]]]]].
  - right. rewrite (scan_no_exact path_fields patterns N). cbn [app truthy].
    set (cands := filter (is_candidate path_fields)
                    (map (split_fields PATTERN_DELIMITER) patterns)).
    assert (Hc : forall m, In m cands ->
              exists p, In p patterns
                        /\ is_candidate path_fields (split_fields PATTERN_DELIMITER p) = true
                        /\ to_string m = to_string (split_fields PATTERN_DELIMITER p)).
    { intros m Hm. apply filter_In in Hm. destruct Hm as [Hm C].
      apply in_map_iff in Hm. destruct Hm as [p [Ep Hp]].
      exists p. subst m. now repeat split. }
    destruct cands as [|a cands'] eqn:Ec.
    + right. repeat split; [exact N|].
      intros p Hp.
      destruct (is_candidate path_fields (split_fields PATTERN_DELIMITER p)) eqn:C;
        [|reflexivity].
      assert (H : In (split_fields PATTERN_DELIMITER p) []).
      { rewrite <- Ec. apply filter_In. split; [|exact C].
        apply in_map_iff. now exists p. }
      destruct H.
    + left. split; [exact N|].
      destruct (List.length (a :: cands') =? 1)%nat.
      * destruct (Hc a (or_introl eq_refl)) as [p [Hp [C Es]]].
        exists p. cbn [nth_error to_string_opt]. rewrite Es. now repeat split.
      * destruct (get_best_potential_match_member (a :: cands')) as [c [Eb Hin]];
          [discriminate|].
        destruct (Hc c Hin) as [p [Hp [C Es]]].
        exists p. rewrite Eb. cbn [to_string_opt]. rewrite Es. now repeat split.
  - left. subst patterns.
    rewrite (scan_first_exact path_fields l1 l2 p N Ep).
    exists p. split; [apply in_or_app; right; now left|]. split; [exact Ep|].
    rewrite Ep. unfold path_fields at 1.
    destruct (split_fields PATH_DELIMITER path) eqn:Es;
      [now apply split_fields_not_nil in Es|].
    reflexivity.
Qed.

(** [find_match] always returns a string. *)
Lemma find_match_total (path : string) (patterns : list string) :
  exists line, find_match path patterns = Ok line.
Proof.
  destruct (find_match_cases path patterns)
    as [[p [_ [_ E]]]|[[_ [p [_ [_ E]]]]|[_ [_ E]]]]; eauto.
Qed.

(** ** Rendering *)

Lemma to_string_fields (p : string) :
  to_string (split_fields PATTERN_DELIMITER p) = Str.strip PATTERN_DELIMITER p.
Proof. apply join_split. Qed.

Lemma to_string_fields_inj (p q : string) :
  to_string (split_fields PATTERN_DELIMITER p)
  = to_string (split_fields PATTERN_DELIMITER q) ->
  split_fields PATTERN_DELIMITER p = split_fields PATTERN_DELIMITER q.
Proof.
  rewrite !to_string_fields. unfold split_fields. now intros ->.
Qed.

Lemma to_string_no_match (p : string) :
  to_string (split_fields PATTERN_DELIMITER p) = NO_MATCH ->
  split_fields PATTERN_DELIMITER p = [NO_MATCH].
Proof.
  rewrite to_string_fields. unfold split_fields. now intros ->.
Qed.

Lemma find_match_exact (path : string) (patterns : list string) (p : string) :
  In p patterns ->
  split_fields PATTERN_DELIMITER p = split_fields PATH_DELIMITER path ->
  find_match path patterns = Ok (to_string (split_fields PATTERN_DELIMITER p)).
Proof.
  intros Hp E.
  destruct (find_match_cases path patterns)
    as [[q [_ [_ R]]]|[[N _]|[N _]]].
  - now rewrite E.
  - destruct (N p Hp E).
  - destruct (N p Hp E).
Qed.

(** ** The claims about [find_match] *)

(** C1. When some pattern of the list has, after normalisation, exactly the
    path's fields, [find_match] returns those fields joined by commas.  The
    patterns before and after it, wildcard candidates or not, do not change
    the result: it is what the pattern alone gives.  The loop stops at the
    first such pattern, and the candidates collected so far are not used. *)
Theorem exact_match_wins (path : string) (l1 l2 : list string) (p : string) :
  split_fields PATTERN_DELIMITER p = split_fields PATH_DELIMITER path ->
  find_match path (l1 ++ p :: l2)%list
  = Ok (to_string (split_fields PATTERN_DELIMITER p))
  /\ find_match path (l1 ++ p :: l2)%list = find_match path [p]
  /\ exists k1 q k2,
       (l1 ++ p :: l2 = k1 ++ q :: k2)%list
       /\ no_exact_match (split_fields PATH_DELIMITER path) k1
       /\ split_fields PATTERN_DELIMITER q = split_fields PATTERN_DELIMITER p
       /\ fst (scan (split_fields PATH_DELIMITER path) (l1 ++ p :: l2)%list [])
          = Some (split_fields PATTERN_DELIMITER q).
Proof.
  intros E.
  assert (Hin : In p (l1 ++ p :: l2)%list) by (apply in_or_app; right; now left).
  split; [|split].
  - now apply find_match_exact.
  - rewrite (find_match_exact path (l1 ++ p :: l2)%list p Hin E).
    symmetry. apply find_match_exact; [now left|exact E].
  - destruct (exact_match_decide (split_fields PATH_DELIMITER path)
                (l1 ++ p :: l2)%list) as [N|[k1 [q [k2 [El [N Eq]]]]]].
    + destruct (N p Hin E).
    + exists k1, q, k2. repeat split; [exact El|exact N|congruence|].
      rewrite El, (scan_first_exact _ k1 k2 q N Eq). reflexivity.
Qed.

Lemma exact_match_wins_witness :
  find_match "a/b/c" ["*,b,c"; "x,y,z"; "a,b,c"; "a,*,c"] = Ok "a,b,c".
Proof.
  apply (exact_match_wins "a/b/c" ["*,b,c"; "x,y,z"] ["a,*,c"] "a,b,c").
  reflexivity.
Defined.

(** C5. A pattern whose number of fields differs from the path's is never
    selected for that path: the loop neither takes it as the exact match nor
    appends it to the candidates, and the text [find_match] returns is the
    rendering of that pattern only when nothing matched and the pattern
    happens to spell the no-match text. *)
Theorem field_count_mismatch_excluded (path : string) (patterns : list string) (p : string) :
  List.length (split_fields PATTERN_DELIMITER p)
  <> List.length (split_fields PATH_DELIMITER path) ->
  fst (scan (split_fields PATH_DELIMITER path) patterns [])
  <> Some (split_fields PATTERN_DELIMITER p)
  /\ ~ In (split_fields PATTERN_DELIMITER p)
          (snd (scan (split_fields PATH_DELIMITER path) patterns []))
  /\ (find_match path patterns = Ok (to_string (split_fields PATTERN_DELIMITER p)) ->
      no_exact_match (split_fields PATH_DELIMITER path) patterns
      /\ no_candidate (split_fields PATH_DELIMITER path) patterns
      /\ find_match path patterns = Ok NO_MATCH).
Proof.
  intros Hlen. split; [|split].
  - destruct (exact_match_decide (split_fields PATH_DELIMITER path) patterns)
      as [N|[k1 [q [k2 [El [N Eq]]]]]].
    + now rewrite (scan_no_exact _ patterns N).
    + subst patterns. rewrite (scan_first_exact _ k1 k2 q N Eq). cbn [fst].
      intros H. injection H as H. apply Hlen. congruence.
  - intros H. apply scan_candidates in H. destruct H as [[]|[q [_ [E C]]]].
    apply is_candidate_wildcard in C. destruct C as [C _]. now symmetry in C.
  - intros R.
    destruct (find_match_cases path patterns)
      as [[q [_ [Eq R']]]|[[_ [q [_ [C R']]]]|H]].
    + rewrite R' in R. injection R as R. rewrite <- Eq in R.
      apply to_string_fields_inj in R. exfalso. apply Hlen. congruence.
    + rewrite R' in R. injection R as R. apply to_string_fields_inj in R.
      apply is_candidate_wildcard in C. destruct C as [C _].
      exfalso. apply Hlen. congruence.
    + exact H.
Qed.

Lemma field_count_mismatch_excluded_witness :
  ~ In (split_fields PATTERN_DELIMITER "a,*")
       (snd (scan (split_fields PATH_DELIMITER "a/b/c") ["a,*"; "a,*,c"] [])).
Proof.
  apply (field_count_mismatch_excluded "a/b/c" ["a,*"; "a,*,c"] "a,*").
  vm_compute. lia.
Defined.

(** With no wildcard among the path's fields, the patterns [find_match]
    takes as candidates are those that hold a wildcard and fit the path
    position by position. *)
Lemma is_candidate_eligible (path_fields pattern_fields : list string) :
  ~ In WILDCARD path_fields ->
  (is_candidate path_fields pattern_fields = true
   <-> In WILDCARD pattern_fields /\ Forall2 field_ok path_fields pattern_fields).
Proof.
  intros Hw. unfold is_candidate. rewrite !andb_true_iff, Nat.eqb_eq. split.
  - intros [[Hl Hc] Hp]. split.
    + unfold contains in Hc. apply existsb_exists in Hc.
      destruct Hc as [x [Hx E]]. apply String.eqb_eq in E. now subst x.
    + destruct (counts_bound path_fields Hw pattern_fields Hl) as [_ H].
      apply H. now apply is_potential_match_unfold.
  - intros [Hin F]. pose proof (Forall2_length F) as Hl. repeat split.
    + exact Hl.
    + unfold contains. apply existsb_exists. exists WILDCARD.
      split; [exact Hin|apply String.eqb_refl].
    + apply is_potential_match_unfold.
      now apply (counts_bound path_fields Hw pattern_fields Hl).
Qed.

Lemma no_candidate_eligible (path_fields : list string) (patterns : list string) :
  ~ In WILDCARD path_fields ->
  (no_candidate path_fields patterns <-> no_eligible_candidate path_fields patterns).
Proof.
  intros Hw. unfold no_candidate, no_eligible_candidate.
  split; intros H p Hp; specialize (H p Hp).
  - intros E. apply (is_candidate_eligible _ _ Hw) in E. congruence.
  - destruct (is_candidate path_fields (split_fields PATTERN_DELIMITER p)) eqn:C;
      [|reflexivity].
    apply (is_candidate_eligible _ _ Hw) in C. contradiction.
Qed.

(** The text [NO MATCH] in terms of the test the code runs. *)
Lemma no_match_by_counting_test (path : string) (patterns : list string) :
  (find_match path patterns = Ok NO_MATCH
   <-> (no_exact_match (split_fields PATH_DELIMITER path) patterns
        /\ no_candidate (split_fields PATH_DELIMITER path) patterns)
       \/ (split_fields PATH_DELIMITER path = [NO_MATCH]
           /\ exists p, In p patterns
                        /\ split_fields PATTERN_DELIMITER p
                           = split_fields PATH_DELIMITER path))
  /\ exists line, find_match path patterns = Ok line.
Proof.
  split; [|apply find_match_total].
  destruct (find_match_cases path patterns)
    as [[q [Hq [Eq R]]]|[[N [q [Hq [C R]]]]|[N [NC R]]]]; rewrite R.
  - split.
    + intros H. injection H as H. right. rewrite <- Eq in H.
      apply to_string_no_match in H. split; [congruence|]. now exists q.
    + intros [[N _]|[E _]]; [destruct (N q Hq Eq)|]. now rewrite E.
  - split.
    + intros H. injection H as H. apply to_string_no_match in H.
      apply is_candidate_wildcard in C. destruct C as [_ C].
      rewrite H in C. discriminate C.
    + intros [[_ NC]|[_ [p [Hp Ep]]]].
      * rewrite (NC q Hq) in C. discriminate C.
      * destruct (N p Hp Ep).
  - split; [intros _; now left|reflexivity].
Qed.

(** C6, as the claim states it, fails: the pattern [NO MATCH] is an exact
    match of the path [NO MATCH], and its rendering is the no-match text. *)
Lemma no_match_text_of_an_exact_match :
  ~ (find_match "NO MATCH" ["NO MATCH"] = Ok NO_MATCH
     <-> no_exact_match (split_fields PATH_DELIMITER "NO MATCH") ["NO MATCH"]
         /\ no_eligible_candidate (split_fields PATH_DELIMITER "NO MATCH")
              ["NO MATCH"]).
Proof.
  intros [H _]. destruct (H eq_refl) as [N _].
  apply (N "NO MATCH"); [now left|reflexivity].
Qed.

(** C6, amended. For a path none of whose fields is the wildcard token,
    [find_match] returns the text [NO MATCH] exactly when no pattern is an
    exact match and none is a wildcard-eligible candidate of equal field
    count (it holds a wildcard and, at every position, the path's field or
    the wildcard), or when the path has the single field [NO MATCH] and some
    pattern matches it exactly.  The text is a normal return value:
    [find_match] raises nothing. *)
Theorem no_match_iff (path : string) (patterns : list string) :
  ~ In WILDCARD (split_fields PATH_DELIMITER path) ->
  (find_match path patterns = Ok NO_MATCH
   <-> (no_exact_match (split_fields PATH_DELIMITER path) patterns
        /\ no_eligible_candidate (split_fields PATH_DELIMITER path) patterns)
       \/ (split_fields PATH_DELIMITER path = [NO_MATCH]
           /\ exists p, In p patterns
                        /\ split_fields PATTERN_DELIMITER p
                           = split_fields PATH_DELIMITER path))
  /\ exists line, find_match path patterns = Ok line.
Proof.
  intros Hw. destruct (no_match_by_counting_test path patterns) as [I T].
  split; [|exact T].
  rewrite I, (no_candidate_eligible _ patterns Hw). reflexivity.
Qed.

Lemma no_match_iff_witness :
  (no_exact_match (split_fields PATH_DELIMITER "a/b/c") ["a,*"; "x,*,c"; "a,b"]
   /\ no_eligible_candidate (split_fields PATH_DELIMITER "a/b/c")
        ["a,*"; "x,*,c"; "a,b"])
  \/ (split_fields PATH_DELIMITER "a/b/c" = [NO_MATCH]
      /\ exists p, In p ["a,*"; "x,*,c"; "a,b"]
                   /\ split_fields PATTERN_DELIMITER p
                      = split_fields PATH_DELIMITER "a/b/c").
Proof.
  apply (no_match_iff "a/b/c" ["a,*"; "x,*,c"; "a,b"]).
  - unfold WILDCARD. simpl. intros [H|[H|[H|[]]]]; discriminate H.
  - reflexivity.
Defined.

(** ** The claims about the resolver *)

Lemma all_hold_wildcard (l : list (list string)) :
  Forall (fun m => contains WILDCARD m = true) l ->
  Forall (fun m => 1 <= wildcards m) l.
Proof.
  apply Forall_impl. intros m. apply contains_wildcards.
Qed.

(** C2. On wildcard candidates (each holds a wildcard field, as every
    candidate [find_match] collects does), when one candidate has strictly
    fewer wildcard fields than every other, [get_best_potential_match]
    returns it, wherever it stands in the list; so a candidate with fewer
    wildcard fields beats one with more. *)
Theorem fewest_wildcards_wins (l1 l2 : list (list string)) (c : list string) :
  Forall (fun m => contains WILDCARD m = true) (l1 ++ c :: l2)%list ->
  (forall x, In x (l1 ++ l2)%list -> wildcards c < wildcards x) ->
  get_best_potential_match (l1 ++ c :: l2)%list = Some c.
Proof.
  intros Hw Hlt. apply get_best_potential_match_spec.
  - now apply all_hold_wildcard.
  - intros x Hx. specialize (Hlt x Hx). lia.
  - intros x Hx E. specialize (Hlt x (in_or_app _ _ _ (or_introl Hx))). lia.
  - intros x Hx E. specialize (Hlt x (in_or_app _ _ _ (or_intror Hx))). lia.
Qed.

Lemma fewest_wildcards_wins_witness :
  get_best_potential_match [["*"; "*"; "c"]; ["a"; "*"; "c"]] = Some ["a"; "*"; "c"].
Proof.
  apply (fewest_wildcards_wins [["*"; "*"; "c"]] [] ["a"; "*"; "c"]).
  - repeat constructor.
  - intros x [Hx|[]]. subst x. vm_compute. lia.
Defined.

(** C3. On wildcard candidates, when a candidate of least wildcard count
    has an index sum (the sum of the zero-based positions of its wildcard
    fields) strictly above that of every other candidate of the same count,
    the resolver returns it, and so does [resolve_tie] on the candidates
    retained.  The comparison is of index sums and not of leftmost wildcard
    positions: of two candidates with two wildcards each, the one whose
    leftmost wildcard stands further left can win. *)
Theorem highest_index_sum_wins (l1 l2 : list (list string)) (c : list string) :
  Forall (fun m => contains WILDCARD m = true) (l1 ++ c :: l2)%list ->
  (forall x, In x (l1 ++ l2)%list -> wildcards c <= wildcards x) ->
  (forall x, In x (l1 ++ l2)%list ->
     wildcards x = wildcards c -> index_sum x < index_sum c) ->
  get_best_potential_match (l1 ++ c :: l2)%list = Some c
  /\ resolve_tie
       (filter (fun x => (wildcards x =? wildcards c)%nat) (l1 ++ c :: l2)%list)
     = Some c
  /\ (let a := ["a"; "*"; "*"; "d"; "e"] in
      let b := ["*"; "b"; "c"; "d"; "*"] in
      wildcards a = wildcards b
      /\ leftmost_wildcard a = Some 1 /\ leftmost_wildcard b = Some 0
      /\ index_sum a = 3 /\ index_sum b = 4
      /\ resolve_tie [a; b] = Some b
      /\ get_best_potential_match [a; b] = Some b).
Proof.
  intros Hw Hmin Hsum. split; [|split].
  - apply get_best_potential_match_spec.
    + now apply all_hold_wildcard.
    + exact Hmin.
    + intros x Hx. apply Hsum, in_or_app. now left.
    + intros x Hx E. apply Nat.lt_le_incl, Hsum; [|exact E].
      apply in_or_app. now right.
  - rewrite filter_app. cbn [filter]. rewrite Nat.eqb_refl.
    apply resolve_tie_first_max; apply Forall_filter; intros x Hx Hf;
      apply Nat.eqb_eq in Hf.
    + apply Hsum; [|exact Hf]. apply in_or_app. now left.
    + apply Nat.lt_le_incl, Hsum; [|exact Hf]. apply in_or_app. now right.
  - repeat split.
Qed.

Lemma highest_index_sum_wins_witness :
  get_best_potential_match [["*"; "b"; "c"]; ["a"; "*"; "c"]] = Some ["a"; "*"; "c"].
Proof.
  apply (highest_index_sum_wins [["*"; "b"; "c"]] [] ["a"; "*"; "c"]).
  - repeat constructor.
  - intros x [Hx|[]]. subst x. vm_compute. lia.
  - intros x [Hx|[]] _. subst x. vm_compute. lia.
Defined.

(** C9. [resolve_tie] returns the first candidate, in list order, among
    those of highest index sum: a candidate wins when every earlier one
    scores strictly lower and no later one scores higher, because only a
    strictly greater index sum replaces the winner.  The list it receives
    keeps the order of the candidates, so for the resolver the first of the
    tied candidates of least wildcard count wins. *)
Theorem resolve_tie_first_in_order (l1 l2 : list (list string)) (c : list string) :
  Forall (fun x => index_sum x < index_sum c) l1 ->
  Forall (fun x => index_sum x <= index_sum c) l2 ->
  resolve_tie (l1 ++ c :: l2)%list = Some c
  /\ forall r1 r2,
       Forall (fun m => contains WILDCARD m = true) (r1 ++ c :: r2)%list ->
       (forall x, In x (r1 ++ r2)%list -> wildcards c <= wildcards x) ->
       filter (fun x => (wildcards x =? wildcards c)%nat) r1 = l1 ->
       filter (fun x => (wildcards x =? wildcards c)%nat) r2 = l2 ->
       get_best_potential_match (r1 ++ c :: r2)%list = Some c.
Proof.
  intros H1 H2. split; [now apply resolve_tie_first_max|].
  intros r1 r2 Hw Hmin E1 E2. apply get_best_potential_match_spec.
  - now apply all_hold_wildcard.
  - exact Hmin.
  - intros x Hx E. rewrite Forall_forall in H1. apply H1. rewrite <- E1.
    apply filter_In. split; [exact Hx|now apply Nat.eqb_eq].
  - intros x Hx E. rewrite Forall_forall in H2. apply H2. rewrite <- E2.
    apply filter_In. split; [exact Hx|now apply Nat.eqb_eq].
Qed.

Lemma resolve_tie_first_in_order_witness :
  resolve_tie [["*"; "b"; "c"; "*"]; ["a"; "*"; "*"; "d"]; ["*"; "b"; "c"; "*"]]
  = Some ["*"; "b"; "c"; "*"]
  /\ resolve_tie [["*"; "b"; "*"; "d"]; ["*"; "b"; "c"; "*"]; ["a"; "*"; "*"; "d"]]
     = Some ["*"; "b"; "c"; "*"].
Proof.
  split.
  - apply (resolve_tie_first_in_order []
             [["a"; "*"; "*"; "d"]; ["*"; "b"; "c"; "*"]] ["*"; "b"; "c"; "*"]).
    + constructor.
    + repeat constructor.
  - apply (resolve_tie_first_in_order [["*"; "b"; "*"; "d"]]
             [["a"; "*"; "*"; "d"]] ["*"; "b"; "c"; "*"]).
    + repeat constructor.
    + repeat constructor.
Defined.

(** The loop of [get_best_potential_match] run on a list is the loop run on
    a prefix and then, from the state reached, on the rest. *)
Lemma fewest_loop_app (p q : list (list string)) :
  forall few wc,
    fewest_loop (p ++ q)%list few wc
    = fewest_loop q (fst (fewest_loop p few wc)) (snd (fewest_loop p few wc)).
Proof.
  induction p as [|m p IH]; intros few wc; [reflexivity|].
  cbn [app fewest_loop].
  destruct wc as [[|k]|]; try apply IH.
  destruct (count WILDCARD m <? S k)%nat; [apply IH|].
  destruct (count WILDCARD m =? S k)%nat; apply IH.
Qed.

(** C10. Every candidate [find_match] collects holds a wildcard field, so
    its wildcard count is at least 1.  Hence, in the loop of
    [get_best_potential_match] on these candidates, after any first part of
    them that is not empty the counter holds a number that is at least 1,
    the first-entry test is false from the second candidate on, and the
    loop goes on from that state; and the resolver returns one of the
    candidates it was given. *)
Theorem candidates_hold_wildcard (path : string) (patterns : list string) :
  let potential_matches := snd (scan (split_fields PATH_DELIMITER path) patterns []) in
  Forall (fun m => contains WILDCARD m = true /\ 1 <= count WILDCARD m)
    potential_matches
  /\ (forall done todo,
        potential_matches = (done ++ todo)%list -> done <> [] ->
        exists k,
          snd (fewest_loop done [] None) = Some k
          /\ 1 <= k
          /\ first_entry (Some k) = false
          /\ fewest_loop potential_matches [] None
             = fewest_loop todo (fst (fewest_loop done [] None)) (Some k))
  /\ (potential_matches <> [] ->
      exists c, get_best_potential_match potential_matches = Some c
                /\ In c potential_matches).
Proof.
  intros pm.
  assert (Hw : Forall (fun m => contains WILDCARD m = true /\ 1 <= count WILDCARD m) pm).
  { apply Forall_forall. intros m Hm. apply scan_candidates in Hm.
    destruct Hm as [[]|[p [_ [_ C]]]].
    apply is_candidate_wildcard in C. destruct C as [_ C].
    split; [exact C|]. now apply contains_wildcards. }
  split; [exact Hw|]. split.
  - intros done todo E Hd.
    destruct done as [|m done]; [contradiction|].
    assert (Hdone : Forall (fun c => 1 <= wildcards c) (m :: done)).
    { rewrite E in Hw. apply Forall_app in Hw. destruct Hw as [Hw _].
      revert Hw. apply Forall_impl. now intros a [_ Ha]. }
    destruct (fewest_loop_counter m done Hdone) as [Ek Hk].
    exists (least (wildcards m) done). repeat split.
    + exact Ek.
    + exact Hk.
    + destruct (least (wildcards m) done); [lia|reflexivity].
    + rewrite E, fewest_loop_app, Ek. reflexivity.
  - apply get_best_potential_match_member.
Qed.

Lemma candidates_hold_wildcard_witness :
  exists c,
    get_best_potential_match
      (snd (scan (split_fields PATH_DELIMITER "a/b/c") ["*,b,*"; "a,b"; "a,*,c"] []))
    = Some c
    /\ In c (snd (scan (split_fields PATH_DELIMITER "a/b/c")
                    ["*,b,*"; "a,b"; "a,*,c"] [])).
Proof.
  apply (candidates_hold_wildcard "a/b/c" ["*,b,*"; "a,b"; "a,*,c"]).
  vm_compute. discriminate.
Defined.

(** ** The driver *)

Section Driver.
Variable int : string -> option Z.
Variable maxint : Z.

Lemma islice_ok (inputs : list string) (stop : Z) :
  (0 <= stop <= maxint)%Z ->
  islice maxint inputs stop
  = Ok (firstn (Z.to_nat stop) inputs, skipn (Z.to_nat stop) inputs).
Proof.
  intros [H0 H1]. unfold islice.
  apply Z.leb_le in H0. apply Z.leb_le in H1. now rewrite H0, H1.
Qed.

Lemma read_count_ok (line : string) (rest : list string) (n : Z) :
  (1 <= maxint)%Z ->
  int line = Some n ->
  read_count int maxint (line :: rest) = Ok (n, rest).
Proof.
  intros Hm Hn. unfold read_count.
  rewrite islice_ok by lia. change (Z.to_nat 1) with 1%nat.
  cbn [bind firstn skipn fst snd]. now rewrite Hn.
Qed.

(** The loop prints one line per path, in order, and ends normally. *)
Lemma print_loop_spec (patterns : list string) (paths : list string) :
  exists out,
    print_loop paths patterns = (out, None)
    /\ Forall2 (fun path line => find_match path patterns = Ok line) paths out.
Proof.
  induction paths as [|path rest [out [E F]]].
  - exists []. split; [reflexivity|constructor].
  - destruct (find_match_total path patterns) as [line R].
    exists (line :: out). cbn [print_loop]. rewrite R, E.
    split; [reflexivity|now constructor].
Qed.

End Driver.

(** C8, as the claim states it, fails: a path count that [int] reads but
    that is above [sys.maxint] is refused by [islice], so [main] ends with
    [ValueError] and prints nothing although a path line follows the
    count. *)
Lemma path_count_above_maxint :
  decimal_int "0" = Some 0%Z
  /\ decimal_int "9223372036854775808" = Some 9223372036854775808%Z
  /\ main decimal_int 9223372036854775807 ["0"; "9223372036854775808"; "a/b"]
     = ([], Some ValueError)
  /\ ~ (exists out,
          main decimal_int 9223372036854775807
            ["0"; "9223372036854775808"; "a/b"] = (out, None)
          /\ Forall2 (fun path line => find_match path [] = Ok line) ["a/b"] out).
Proof.
  assert (E : main decimal_int 9223372036854775807
                ["0"; "9223372036854775808"; "a/b"] = ([], Some ValueError))
    by (vm_compute; reflexivity).
  repeat split; try (vm_compute; reflexivity).
  intros [out [R _]]. rewrite E in R. discriminate R.
Qed.

(** C8, amended. When both count lines are there and [int] reads them as
    values that [islice] accepts (from 0 to [sys.maxint]), [main] ends
    without an exception and prints exactly one line per path line consumed:
    the lines are the results of [find_match] on the consumed path lines, in
    their order.  The path lines consumed are the first [N] lines after the
    path count, or all of them when fewer than [N] are left, which is no
    error. *)
Theorem main_one_line_per_path
    (int : string -> option Z) (maxint : Z) (stdin : list string)
    (count_line : string) (after_count : list string) (P : Z)
    (count_line' : string) (path_lines : list string) (N : Z) :
  (1 <= maxint)%Z ->
  map (Str.rstrip newline) stdin = count_line :: after_count ->
  int count_line = Some P -> (0 <= P <= maxint)%Z ->
  skipn (Z.to_nat P) after_count = count_line' :: path_lines ->
  int count_line' = Some N -> (0 <= N <= maxint)%Z ->
  let patterns := firstn (Z.to_nat P) after_count in
  let consumed := firstn (Z.to_nat N) path_lines in
  exists out,
    main int maxint stdin = (out, None)
    /\ Forall2 (fun path line => find_match path patterns = Ok line) consumed out
    /\ List.length out = List.length consumed
    /\ List.length consumed = Nat.min (Z.to_nat N) (List.length path_lines)
    /\ (Z.of_nat (List.length out) <= N)%Z.
Proof.
  intros Hm Hin HP HPr Hsk HN HNr patterns consumed.
  destruct (print_loop_spec patterns consumed) as [out [E F]].
  exists out.
  assert (Hlen : List.length consumed = Nat.min (Z.to_nat N) (List.length path_lines))
    by apply length_firstn.
  assert (Hout : List.length out = List.length consumed)
    by (symmetry; eapply Forall2_length; exact F).
  repeat split; try assumption.
  - unfold main, read_input. rewrite Hin.
    rewrite (read_count_ok int maxint count_line after_count P Hm HP).
    cbn [bind fst snd]. rewrite (islice_ok maxint after_count P HPr).
    cbn [bind fst snd]. rewrite Hsk.
    rewrite (read_count_ok int maxint count_line' path_lines N Hm HN).
    cbn [bind fst snd]. rewrite (islice_ok maxint path_lines N HNr).
    cbn [bind fst snd]. exact E.
  - lia.
Qed.

Lemma main_one_line_per_path_witness :
  exists out,
    main decimal_int 2147483647
      ["2" ++ String newline ""; "a,b,c" ++ String newline "";
       "*,b,c" ++ String newline ""; "3" ++ String newline "";
       "/a/b/c/" ++ String newline ""; "x/b/c"] = (out, None)
    /\ Forall2 (fun path line => find_match path ["a,b,c"; "*,b,c"] = Ok line)
         ["/a/b/c/"; "x/b/c"] out
    /\ List.length out = 2.
Proof.
  destruct (main_one_line_per_path decimal_int 2147483647
              ["2" ++ String newline ""; "a,b,c" ++ String newline "";
               "*,b,c" ++ String newline ""; "3" ++ String newline "";
               "/a/b/c/" ++ String newline ""; "x/b/c"]
              "2" ["a,b,c"; "*,b,c"; "3"; "/a/b/c/"; "x/b/c"] 2
              "3" ["/a/b/c/"; "x/b/c"] 3) as [out [E [F [L _]]]];
    try reflexivity; try lia.
  exists out. repeat split; assumption.
Defined.


(** ** Further properties of the string methods *)

Lemma lstrip_fixed (d : ascii) (s : string) :
  (forall t, s <> String d t) -> Str.lstrip d s = s.
Proof.
  destruct s as [|c s]; intros N; simpl; [reflexivity|].
  destruct (Ascii.eqb_spec c d) as [E|_]; [|reflexivity].
  subst c. destruct (N s eq_refl).
Qed.

Lemma rstrip_fixed (d : ascii) (s : string) :
  (forall t, s <> t ++ String d "") -> Str.rstrip d s = s.
Proof.
  induction s as [|c s IH]; intros N; simpl; [reflexivity|].
  rewrite IH.
  - destruct s as [|a r]; [|reflexivity].
    destruct (Ascii.eqb_spec c d) as [E|_]; [|reflexivity].
    subst c. destruct (N "" eq_refl).
  - intros t E. apply (N (String c t)). simpl. now rewrite E.
Qed.

Lemma strip_idempotent (d : ascii) (s : string) :
  Str.strip d (Str.strip d s) = Str.strip d s.
Proof.
  unfold Str.strip at 1.
  rewrite lstrip_fixed by (intros t; apply strip_no_leading).
  apply rstrip_fixed. intros t. apply strip_no_trailing.
Qed.

Lemma split_plain (d : ascii) (f : string) :
  Str.has_char d f = false -> Str.split d f = [f].
Proof.
  induction f as [|c f IH]; simpl; [reflexivity|].
  intros H. apply orb_false_elim in H. destruct H as [Hc Hf].
  rewrite Hc, (IH Hf). reflexivity.
Qed.

Lemma split_field_then (d : ascii) (f rest : string) :
  Str.has_char d f = false ->
  Str.split d (f ++ String d rest) = f :: Str.split d rest.
Proof.
  induction f as [|c f IH]; simpl.
  - intros _. now rewrite Ascii.eqb_refl.
  - intros H. apply orb_false_elim in H. destruct H as [Hc Hf].
    rewrite Hc, (IH Hf). reflexivity.
Qed.

(** X1. Rendering the fields of a pattern gives the pattern without its
    leading and trailing commas, and fields rendered and split again are
    unchanged: the output of [to_string] is in normal form. *)
Theorem to_string_of_fields (p : string) :
  to_string (split_fields PATTERN_DELIMITER p) = Str.strip PATTERN_DELIMITER p
  /\ split_fields PATTERN_DELIMITER (to_string (split_fields PATTERN_DELIMITER p))
     = split_fields PATTERN_DELIMITER p.
Proof.
  split; [apply join_split|].
  unfold to_string, split_fields. rewrite join_split.
  now rewrite strip_idempotent.
Qed.

(** X2. Splitting a joined list gives the list back when the list is not
    empty and no element holds the delimiter. *)
Theorem split_of_join (d : ascii) (l : list string) :
  l <> [] ->
  Forall (fun f => Str.has_char d f = false) l ->
  Str.split d (Str.join d l) = l.
Proof.
  intros Hl H. induction H as [|f l Hf Hrest IH]; [contradiction|].
  destruct l as [|g l].
  - now apply split_plain.
  - rewrite join_cons, (split_field_then d f _ Hf).
    f_equal. apply IH. discriminate.
Qed.

Lemma split_of_join_witness :
  Str.split PATTERN_DELIMITER (Str.join PATTERN_DELIMITER ["a"; "*"; ""; "c"])
  = ["a"; "*"; ""; "c"].
Proof.
  apply (split_of_join PATTERN_DELIMITER ["a"; "*"; ""; "c"]).
  - discriminate.
  - repeat constructor.
Defined.

Lemma split_length (d : ascii) (s : string) :
  List.length (Str.split d s) = S (count_char d s).
Proof.
  induction s as [|c s IH]; simpl; [reflexivity|].
  destruct (Ascii.eqb c d); simpl; [now rewrite IH|].
  destruct (Str.split d s) as [|f fs]; [discriminate IH|exact IH].
Qed.

(** X3. The number of fields of a path or a pattern is one more than the
    number of delimiters left after stripping; in particular there is always
    at least one field. *)
Theorem field_count (d : ascii) (s : string) :
  List.length (split_fields d s) = S (count_char d (Str.strip d s))
  /\ split_fields d s <> [].
Proof.
  split; [apply split_length|apply split_not_nil].
Qed.

(** ** Further properties of [find_match] *)




(** X5. What [find_match] returns is the text [NO MATCH] or one of the
    given patterns without its leading and trailing commas, a pattern with
    as many fields as the path; on an empty pattern list it is [NO MATCH]. *)
Theorem find_match_returns_a_pattern (path : string) (patterns : list string) :
  (exists line,
     find_match path patterns = Ok line
     /\ (line = NO_MATCH
         \/ exists p,
              In p patterns
              /\ line = Str.strip PATTERN_DELIMITER p
              /\ List.length (split_fields PATTERN_DELIMITER p)
                 = List.length (split_fields PATH_DELIMITER path)))
  /\ find_match path [] = Ok NO_MATCH.
Proof.
  split; [|reflexivity].
  destruct (find_match_cases path patterns)
    as [[p [Hp [Ep R]]]|[[_ [p [Hp [C R]]]]|[_ [_ R]]]].
  - exists (to_string (split_fields PATH_DELIMITER path)).
    split; [exact R|right]. exists p. split; [exact Hp|].
    rewrite <- Ep, to_string_fields. now split.
  - exists (to_string (split_fields PATTERN_DELIMITER p)).
    split; [exact R|right]. exists p. split; [exact Hp|].
    rewrite to_string_fields. split; [reflexivity|].
    apply is_candidate_wildcard in C. now destruct C.
  - exists NO_MATCH. split; [exact R|now left].
Qed.

(** X6. When no pattern matches exactly, the candidates are the pattern
    fields that pass the wildcard test, in pattern order, and [find_match]
    returns the rendering of the candidate of least wildcard count that
    scores above every earlier candidate of that count and is not beaten by
    a later one. *)
Theorem find_match_best_candidate
    (path : string) (patterns : list string)
    (l1 l2 : list (list string)) (c : list string) :
  no_exact_match (split_fields PATH_DELIMITER path) patterns ->
  filter (is_candidate (split_fields PATH_DELIMITER path))
    (map (split_fields PATTERN_DELIMITER) patterns) = (l1 ++ c :: l2)%list ->
  (forall x, In x (l1 ++ l2)%list -> wildcards c <= wildcards x) ->
  (forall x, In x l1 -> wildcards x = wildcards c -> index_sum x < index_sum c) ->
  (forall x, In x l2 -> wildcards x = wildcards c -> index_sum x <= index_sum c) ->
  snd (scan (split_fields PATH_DELIMITER path) patterns []) = (l1 ++ c :: l2)%list
  /\ find_match path patterns = Ok (to_string c).
Proof.
  intros N Ec Hmin H1 H2.
  assert (Es : scan (split_fields PATH_DELIMITER path) patterns []
               = (None, (l1 ++ c :: l2)%list)).
  { rewrite (scan_no_exact _ patterns N). cbn [app]. now rewrite Ec. }
  split; [now rewrite Es|].
  unfold find_match. rewrite Es. cbn [truthy].
  assert (Hw : Forall (fun m => 1 <= wildcards m) (l1 ++ c :: l2)%list).
  { rewrite <- Ec. apply Forall_filter. intros x _ C.
    apply is_candidate_wildcard in C. destruct C as [_ C].
    now apply contains_wildcards. }
  assert (B : get_best_potential_match (l1 ++ c :: l2)%list = Some c)
    by now apply get_best_potential_match_spec.
  destruct (l1 ++ c :: l2)%list as [|a l] eqn:El.
  - destruct l1; discriminate El.
  - destruct (Nat.eqb_spec (List.length (a :: l)) 1) as [E1|_].
    + destruct l as [|a' l]; [|discriminate E1].
      destruct l1 as [|x l1].
      * injection El as El _. subst a. reflexivity.
      * destruct l1; discriminate El.
    + now rewrite B.
Qed.

Lemma find_match_best_candidate_witness :
  find_match "a/b/c" ["*,*,c"; "x,*,c"; "*,b,c"; "a,b"; "a,*,c"; "a,b,*,*"]
  = Ok "a,*,c".
Proof.
  apply (find_match_best_candidate "a/b/c"
           ["*,*,c"; "x,*,c"; "*,b,c"; "a,b"; "a,*,c"; "a,b,*,*"]
           [["*"; "*"; "c"]; ["*"; "b"; "c"]] [] ["a"; "*"; "c"]).
  - intros p Hp. simpl in Hp.
    repeat (destruct Hp as [Hp|Hp]; [subst p; vm_compute; discriminate|]).
    destruct Hp.
  - reflexivity.
  - intros x Hx. simpl in Hx.
    repeat (destruct Hx as [Hx|Hx]; [subst x; vm_compute; lia|]).
    destruct Hx.
  - intros x Hx E. simpl in Hx.
    repeat (destruct Hx as [Hx|Hx];
            [subst x; vm_compute in E; vm_compute; lia|]).
    destruct Hx.
  - intros x [].
Defined.

(** ** Further properties of the resolver *)

Lemma list_sum_step (n : nat) (l : list nat) :
  list_sum (n :: l) = n + list_sum l.
Proof. reflexivity. Qed.

(** Index sum of the fields numbered from [s] on. *)
Lemma index_sum_shift (l : list string) :
  forall s,
    list_sum (map fst (filter (fun iv => String.eqb (snd iv) WILDCARD)
                         (combine (seq (S s) (List.length l)) l)))
    = list_sum (map fst (filter (fun iv => String.eqb (snd iv) WILDCARD)
                           (combine (seq s (List.length l)) l)))
      + wildcards l.
Proof.
  unfold wildcards, count.
  induction l as [|v l IH]; intros s; [reflexivity|].
  cbn [List.length seq combine filter snd count_occ].
  destruct (String.eqb_spec v WILDCARD) as [E|N].
  - subst v. destruct (string_dec WILDCARD WILDCARD) as [_|N]; [|now destruct N].
    cbn [map fst]. rewrite !list_sum_step, IH. lia.
  - destruct (string_dec v WILDCARD) as [E|_]; [contradiction|]. apply IH.
Qed.

Lemma index_sum_cons (v : string) (l : list string) :
  index_sum (v :: l) = index_sum l + wildcards l.
Proof.
  unfold index_sum, enumerate.
  cbn [List.length seq combine filter snd].
  destruct (String.eqb v WILDCARD); cbn [map fst];
    rewrite ?list_sum_step, index_sum_shift; reflexivity.
Qed.

Lemma wildcards_cons (v : string) (l : list string) :
  wildcards (v :: l) = (if String.eqb v WILDCARD then 1 else 0) + wildcards l.
Proof.
  unfold wildcards, count. cbn [count_occ].
  destruct (String.eqb_spec v WILDCARD) as [E|N];
    destruct (string_dec v WILDCARD); try contradiction; reflexivity.
Qed.

Lemma index_sum_no_wildcard (l : list string) :
  wildcards l = 0 -> index_sum l = 0 /\ leftmost_wildcard l = None.
Proof.
  induction l as [|v l IH]; [now split|].
  rewrite wildcards_cons, index_sum_cons. cbn [leftmost_wildcard].
  destruct (String.eqb v WILDCARD); [discriminate|].
  intros H. destruct (IH H) as [A B]. rewrite A, B. split; [lia|reflexivity].
Qed.

Lemma leftmost_of_single (l : list string) :
  wildcards l = 1 -> leftmost_wildcard l = Some (index_sum l).
Proof.
  induction l as [|v l IH]; [discriminate|].
  rewrite wildcards_cons, index_sum_cons. cbn [leftmost_wildcard].
  destruct (String.eqb v WILDCARD); intros H.
  - assert (H0 : wildcards l = 0) by lia.
    destruct (index_sum_no_wildcard l H0) as [A _]. rewrite A, H0. reflexivity.
  - simpl in H. rewrite (IH H), H. cbn [option_map]. f_equal. lia.
Qed.

(** X7. The index sum of a pattern with no wildcard is 0, and that of a
    pattern with exactly one wildcard is the position of that wildcard; each
    field before a wildcard adds one to the sum per wildcard behind it. *)
Theorem index_sum_of_single_wildcard (pattern : list string) :
  (wildcards pattern = 0 -> index_sum pattern = 0)
  /\ (wildcards pattern = 1 -> leftmost_wildcard pattern = Some (index_sum pattern))
  /\ (forall v, index_sum (v :: pattern) = index_sum pattern + wildcards pattern).
Proof.
  split; [|split].
  - intros H. now destruct (index_sum_no_wildcard pattern H).
  - apply leftmost_of_single.
  - intros v. apply index_sum_cons.
Qed.

Lemma index_sum_of_single_wildcard_witness :
  leftmost_wildcard ["a"; "b"; "*"; "d"] = Some (index_sum ["a"; "b"; "*"; "d"]).
Proof.
  apply (index_sum_of_single_wildcard ["a"; "b"; "*"; "d"]). reflexivity.
Defined.

(** X8. Among candidates with exactly one wildcard each, the resolver
    returns the one whose wildcard stands furthest to the right, the first
    such in list order: on these the index sum is the rule of the docstring. *)
Theorem single_wildcard_rightmost_wins
    (l1 l2 : list (list string)) (c : list string) (k : nat) :
  Forall (fun m => wildcards m = 1) (l1 ++ c :: l2)%list ->
  leftmost_wildcard c = Some k ->
  (forall x i, In x l1 -> leftmost_wildcard x = Some i -> i < k) ->
  (forall x i, In x l2 -> leftmost_wildcard x = Some i -> i <= k) ->
  get_best_potential_match (l1 ++ c :: l2)%list = Some c.
Proof.
  intros Hone Hk H1 H2.
  assert (Hall : forall x, In x (l1 ++ c :: l2)%list -> wildcards x = 1)
    by now apply Forall_forall.
  assert (Hc : wildcards c = 1) by (apply Hall, in_or_app; right; now left).
  assert (Ek : index_sum c = k).
  { pose proof (leftmost_of_single c Hc) as E. congruence. }
  apply get_best_potential_match_spec.
  - revert Hone. apply Forall_impl. intros m ->. lia.
  - intros x Hx. rewrite Hc, (Hall x); [lia|].
    apply in_app_or in Hx. apply in_or_app.
    destruct Hx; [now left|right; now right].
  - intros x Hx _. rewrite Ek. apply (H1 x _ Hx).
    apply leftmost_of_single, Hall, in_or_app. now left.
  - intros x Hx _. rewrite Ek. apply (H2 x _ Hx).
    apply leftmost_of_single, Hall, in_or_app. right. now right.
Qed.

Lemma single_wildcard_rightmost_wins_witness :
  get_best_potential_match
    [["*"; "b"; "c"]; ["a"; "b"; "*"]; ["a"; "*"; "c"]; ["a"; "b"; "*"]]
  = Some ["a"; "b"; "*"].
Proof.
  apply (single_wildcard_rightmost_wins [["*"; "b"; "c"]]
           [["a"; "*"; "c"]; ["a"; "b"; "*"]] ["a"; "b"; "*"] 2).
  - repeat constructor.
  - reflexivity.
  - intros x i [Hx|[]] E. subst x. vm_compute in E. injection E as E. lia.
  - intros x i [Hx|[Hx|[]]] E; subst x; vm_compute in E; injection E as E; lia.
Defined.

(** X9. Called on two candidates of which the first holds no wildcard,
    [get_best_potential_match] does not return the first for its lower
    count: the first-entry test holds again at the second candidate, both
    are kept, and the second wins as soon as its index sum is positive. *)
Theorem zero_wildcard_first_candidate (a b : list string) :
  wildcards a = 0 ->
  fewest_loop [a; b] [] None = ([a; b], Some (wildcards b))
  /\ get_best_potential_match [a; b]
     = (if (0 <? index_sum b)%nat then Some b else Some a).
Proof.
  intros Ha. destruct (index_sum_no_wildcard a Ha) as [Sa _].
  assert (L : fewest_loop [a; b] [] None = ([a; b], Some (wildcards b))).
  { cbn [fewest_loop app]. fold (wildcards a) (wildcards b). now rewrite Ha. }
  split; [exact L|].
  unfold get_best_potential_match. rewrite L. cbn [fst List.length Nat.eqb].
  unfold resolve_tie. cbn [resolve_tie_loop]. now rewrite Sa.
Qed.

Lemma zero_wildcard_first_candidate_witness :
  get_best_potential_match [["a"; "b"]; ["a"; "*"]] = Some ["a"; "*"].
Proof.
  apply (zero_wildcard_first_candidate ["a"; "b"] ["a"; "*"]). reflexivity.
Defined.

(** ** Further properties of [is_potential_match] *)

Lemma count_true_padding (l : list string) :
  count_occ bool_dec (map (fun _ => false) l) true = 0.
Proof.
  induction l as [|x l IH]; simpl; [reflexivity|].
  destruct (bool_dec false true); [discriminate|exact IH].
Qed.

Lemma map_eq_longer_pattern (path_fields : list string) :
  forall pattern_fields extra,
    List.length path_fields = List.length pattern_fields ->
    map_eq path_fields (pattern_fields ++ extra)%list
    = (map_eq path_fields pattern_fields ++ map (fun _ => false) extra)%list.
Proof.
  induction path_fields as [|x xs IH]; intros [|y ys] extra E;
    try discriminate E; [reflexivity|].
  injection E as E. cbn [app map_eq]. now rewrite IH.
Qed.

Lemma map_eq_longer_path (path_fields : list string) :
  forall pattern_fields extra,
    List.length path_fields = List.length pattern_fields ->
    map_eq (path_fields ++ extra)%list pattern_fields
    = (map_eq path_fields pattern_fields ++ map (fun _ => false) extra)%list.
Proof.
  induction path_fields as [|x xs IH]; intros [|y ys] extra E;
    try discriminate E.
  - now destruct extra.
  - injection E as E. cbn [app map_eq]. now rewrite IH.
Qed.

(** X10. [is_potential_match] does not compare lengths itself.  Fields
    without a wildcard appended to the pattern are not seen, so the answer
    stays what it was; fields appended to the path turn an accepted pattern
    into a rejected one. *)
Theorem is_potential_match_unequal_lengths
    (path_fields pattern_fields extra : list string) :
  List.length path_fields = List.length pattern_fields ->
  (~ In WILDCARD extra ->
   is_potential_match path_fields (pattern_fields ++ extra)%list
   = is_potential_match path_fields pattern_fields)
  /\ (extra <> [] ->
      is_potential_match path_fields pattern_fields = true ->
      is_potential_match (path_fields ++ extra)%list pattern_fields = false).
Proof.
  intros E. split.
  - intros Hx. unfold is_potential_match, count.
    rewrite (map_eq_longer_pattern _ _ extra E), !count_occ_app.
    rewrite count_true_padding.
    rewrite (proj1 (count_occ_not_In string_dec extra WILDCARD) Hx).
    now rewrite !Nat.add_0_r.
  - intros Hx H. apply is_potential_match_unfold in H.
    unfold is_potential_match.
    rewrite (map_eq_longer_path _ _ extra E), count_occ_app, count_true_padding.
    rewrite Nat.add_0_r, H, length_app.
    destruct extra as [|x extra]; [contradiction|].
    destruct (Nat.eqb_spec (List.length path_fields)
                (List.length path_fields + List.length (x :: extra)))
      as [A|_]; [|reflexivity].
    simpl in A. lia.
Qed.

Lemma is_potential_match_unequal_lengths_witness :
  is_potential_match ["a"; "b"] ["a"; "*"; "c"] = is_potential_match ["a"; "b"] ["a"; "*"]
  /\ is_potential_match ["a"; "b"; "c"] ["a"; "*"] = false.
Proof.
  destruct (is_potential_match_unequal_lengths ["a"; "b"] ["a"; "*"] ["c"] eq_refl)
    as [A B].
  split.
  - apply A. intros [H|[]]. discriminate H.
  - apply B; [discriminate|reflexivity].
Defined.

Lemma counts_identity (path_fields : list string) :
  forall pattern_fields,
    List.length path_fields = List.length pattern_fields ->
    count_occ bool_dec (map_eq path_fields pattern_fields) true
    + count WILDCARD pattern_fields
    = ok_count path_fields pattern_fields
      + both_wild_count path_fields pattern_fields.
Proof.
  unfold ok_count, both_wild_count, count.
  induction path_fields as [|x xs IH]; intros [|y ys] E; try discriminate E;
    [reflexivity|].
  injection E as E. specialize (IH ys E).
  cbn [map_eq count_occ combine filter fst snd].
  destruct (String.eqb_spec x y) as [Exy|Nxy];
    destruct (String.eqb_spec y WILDCARD) as [Ey|Ny];
    destruct (String.eqb_spec x WILDCARD) as [Ex|Nx];
    destruct (string_dec y WILDCARD) as [Dy|Dy];
    try congruence;
    cbn [orb andb List.length];
    (destruct (bool_dec true true) as [_|F]; [|now destruct F]) ||
    (destruct (bool_dec false true) as [F|_]; [discriminate F|]);
    lia.
Qed.

Lemma ok_count_all (path_fields pattern_fields : list string) :
  Forall2 field_ok path_fields pattern_fields ->
  ok_count path_fields pattern_fields = List.length path_fields.
Proof.
  unfold ok_count. induction 1 as [|x y xs ys Hxy _ IH]; [reflexivity|].
  cbn [combine filter fst snd].
  assert (T : String.eqb x y || String.eqb y WILDCARD = true).
  { apply orb_true_iff. destruct Hxy as [->| ->];
      [left|right]; apply String.eqb_refl. }
  rewrite T. cbn [List.length]. now rewrite IH.
Qed.

(** X11. For fields of equal length [is_potential_match] adds, to the
    positions that are fine, the positions where path and pattern both hold
    the wildcard token, which it counts twice.  So a pattern that is fine at
    every position is accepted exactly when no such position exists: a
    wildcard of the pattern does not match a path field [*]. *)
Theorem is_potential_match_double_count (path_fields pattern_fields : list string) :
  List.length path_fields = List.length pattern_fields ->
  (is_potential_match path_fields pattern_fields = true
   <-> ok_count path_fields pattern_fields
       + both_wild_count path_fields pattern_fields
       = List.length path_fields)
  /\ (Forall2 field_ok path_fields pattern_fields ->
      (is_potential_match path_fields pattern_fields = true
       <-> both_wild_count path_fields pattern_fields = 0)).
Proof.
  intros E. pose proof (counts_identity path_fields pattern_fields E) as I.
  split.
  - rewrite is_potential_match_unfold, I. reflexivity.
  - intros F. rewrite is_potential_match_unfold, I, (ok_count_all _ _ F). lia.
Qed.

Lemma is_potential_match_double_count_witness :
  is_potential_match ["*"; "b"] ["*"; "*"] = true
  <-> both_wild_count ["*"; "b"] ["*"; "*"] = 0.
Proof.
  apply (is_potential_match_double_count ["*"; "b"] ["*"; "*"] eq_refl).
  repeat constructor; now right.
Defined.

(** ** Further properties of [main] *)

Section DriverErrors.
Variable int : string -> option Z.
Variable maxint : Z.

Lemma islice_raises (inputs : list string) (stop : Z) (e : exn) :
  islice maxint inputs stop = Raise e -> e = ValueError.
Proof.
  unfold islice. destruct ((0 <=? stop)%Z && (stop <=? maxint)%Z);
    [discriminate|]. intros H. now injection H.
Qed.

Lemma islice_rejects (inputs : list string) (stop : Z) :
  (stop < 0 \/ maxint < stop)%Z -> islice maxint inputs stop = Raise ValueError.
Proof.
  intros H. unfold islice.
  destruct (Z.leb_spec 0 stop); destruct (Z.leb_spec stop maxint);
    try reflexivity; lia.
Qed.

Lemma read_count_raises (inputs : list string) (e : exn) :
  read_count int maxint inputs = Raise e -> e = IndexError \/ e = ValueError.
Proof.
  unfold read_count.
  destruct (islice maxint inputs 1) as [taken|e1] eqn:E1; cbn [bind].
  - destruct (fst taken) as [|line rest].
    + intros H. injection H as <-. now left.
    + destruct (int line); [discriminate|].
      intros H. injection H as <-. now right.
  - intros H. injection H as <-. right. now apply islice_raises in E1.
Qed.

Lemma read_count_empty :
  (1 <= maxint)%Z -> read_count int maxint [] = Raise IndexError.
Proof.
  intros Hm. unfold read_count. rewrite islice_ok by lia. reflexivity.
Qed.

Lemma read_input_raises (stdin : list string) (e : exn) :
  read_input int maxint stdin = Raise e -> e = IndexError \/ e = ValueError.
Proof.
  unfold read_input.
  destruct (read_count int maxint (map (Str.rstrip newline) stdin))
    as [counted|e1] eqn:E1; cbn [bind];
    [|intros H; injection H as <-; now apply read_count_raises in E1].
  destruct (islice maxint (snd counted) (fst counted)) as [sliced|e2] eqn:E2;
    cbn [bind];
    [|intros H; injection H as <-; right; now apply islice_raises in E2].
  destruct (read_count int maxint (snd sliced)) as [counted'|e3] eqn:E3;
    cbn [bind];
    [|intros H; injection H as <-; now apply read_count_raises in E3].
  destruct (islice maxint (snd counted') (fst counted')) as [paths|e4] eqn:E4;
    cbn [bind];
    [discriminate|intros H; injection H as <-; right; now apply islice_raises in E4].
Qed.

(** With both count lines accepted, [main] is the printing loop on the
    patterns and the path lines taken. *)
Lemma main_reads (stdin : list string)
    (count_line : string) (after_count : list string) (P : Z)
    (count_line' : string) (path_lines : list string) (N : Z) :
  (1 <= maxint)%Z ->
  map (Str.rstrip newline) stdin = count_line :: after_count ->
  int count_line = Some P -> (0 <= P <= maxint)%Z ->
  skipn (Z.to_nat P) after_count = count_line' :: path_lines ->
  int count_line' = Some N -> (0 <= N <= maxint)%Z ->
  main int maxint stdin
  = print_loop (firstn (Z.to_nat N) path_lines) (firstn (Z.to_nat P) after_count).
Proof.
  intros Hm Hin HP HPr Hsk HN HNr.
  unfold main, read_input. rewrite Hin.
  rewrite (read_count_ok int maxint count_line after_count P Hm HP).
  cbn [bind fst snd]. rewrite (islice_ok maxint after_count P HPr).
  cbn [bind fst snd]. rewrite Hsk.
  rewrite (read_count_ok int maxint count_line' path_lines N Hm HN).
  cbn [bind fst snd]. rewrite (islice_ok maxint path_lines N HNr).
  reflexivity.
Qed.

End DriverErrors.

(** X12. When [main] ends with an exception it has printed nothing, and
    the exception is [IndexError] or [ValueError]: the input is read and
    checked before the first line is printed, and [find_match] never
    raises. *)
Theorem main_exception_means_no_output
    (int : string -> option Z) (maxint : Z) (stdin : list string) (e : exn) :
  snd (main int maxint stdin) = Some e ->
  fst (main int maxint stdin) = [] /\ (e = IndexError \/ e = ValueError).
Proof.
  unfold main.
  destruct (read_input int maxint stdin) as [[patterns paths]|e1] eqn:E1.
  - destruct (print_loop_spec patterns paths) as [out [E _]].
    rewrite E. discriminate.
  - cbn [fst snd]. intros H. injection H as <-.
    split; [reflexivity|]. now apply read_input_raises in E1.
Qed.

Lemma main_exception_means_no_output_witness :
  fst (main decimal_int 2147483647 ["1"; "a,b"; "many"; "a/b"]) = []
  /\ (ValueError = IndexError \/ ValueError = ValueError).
Proof.
  apply (main_exception_means_no_output decimal_int 2147483647
           ["1"; "a,b"; "many"; "a/b"] ValueError).
  reflexivity.
Defined.

(** X13. A missing count line is an [IndexError]: on empty input, and
    when the lines after the pattern count are no more than the patterns
    declared, so that none is left for the path count.  Nothing is
    printed. *)
Theorem main_missing_count_line (int : string -> option Z) (maxint : Z) :
  (1 <= maxint)%Z ->
  main int maxint [] = ([], Some IndexError)
  /\ forall stdin count_line after_count P,
       map (Str.rstrip newline) stdin = count_line :: after_count ->
       int count_line = Some P -> (0 <= P <= maxint)%Z ->
       List.length after_count <= Z.to_nat P ->
       main int maxint stdin = ([], Some IndexError).
Proof.
  intros Hm. split.
  - unfold main, read_input. cbn [map].
    now rewrite (read_count_empty int maxint Hm).
  - intros stdin count_line after_count P Hin HP HPr Hshort.
    unfold main, read_input. rewrite Hin.
    rewrite (read_count_ok int maxint count_line after_count P Hm HP).
    cbn [bind fst snd]. rewrite (islice_ok maxint after_count P HPr).
    cbn [bind fst snd]. rewrite (skipn_all2 after_count Hshort).
    now rewrite (read_count_empty int maxint Hm).
Qed.

Lemma main_missing_count_line_witness :
  main decimal_int 2147483647 ["3"; "a,b"; "*,b"; "1"] = ([], Some IndexError).
Proof.
  apply (main_missing_count_line decimal_int 2147483647 ltac:(lia))
    with (count_line := "3") (after_count := ["a,b"; "*,b"; "1"]) (P := 3%Z).
  - reflexivity.
  - reflexivity.
  - lia.
  - simpl. lia.
Defined.

(** X14. A count line that [int] does not read, or whose value is
    negative or above [sys.maxint], ends [main] with a [ValueError] and no
    output; for the path count this holds although the patterns were read. *)
Theorem main_rejected_count_line
    (int : string -> option Z) (maxint : Z) (stdin : list string)
    (count_line : string) (after_count : list string) :
  (1 <= maxint)%Z ->
  map (Str.rstrip newline) stdin = count_line :: after_count ->
  rejected int maxint count_line
  \/ (exists P count_line' path_lines,
        int count_line = Some P /\ (0 <= P <= maxint)%Z
        /\ skipn (Z.to_nat P) after_count = count_line' :: path_lines
        /\ rejected int maxint count_line') ->
  main int maxint stdin = ([], Some ValueError).
Proof.
  intros Hm Hin H. unfold main, read_input. rewrite Hin.
  assert (R : forall line rest,
            rejected int maxint line ->
            (exists e, read_count int maxint (line :: rest) = Raise e /\ e = ValueError)
            \/ exists n, read_count int maxint (line :: rest) = Ok (n, rest)
                         /\ islice maxint rest n = Raise ValueError).
  { intros line rest [Hn|[n [Hn Hr]]].
    - left. exists ValueError. split; [|reflexivity].
      unfold read_count. rewrite islice_ok by lia.
      change (Z.to_nat 1) with 1%nat. cbn [bind firstn skipn fst snd].
      now rewrite Hn.
    - right. exists n. split; [now apply read_count_ok|now apply islice_rejects]. }
  destruct H as [H|[P [count_line' [path_lines [HP [HPr [Hsk H]]]]]]].
  - destruct (R count_line after_count H) as [[e [E ->]]|[n [E Es]]];
      rewrite E; cbn [bind fst snd]; [reflexivity|now rewrite Es].
  - rewrite (read_count_ok int maxint count_line after_count P Hm HP).
    cbn [bind fst snd]. rewrite (islice_ok maxint after_count P HPr).
    cbn [bind fst snd]. rewrite Hsk.
    destruct (R count_line' path_lines H) as [[e [E ->]]|[n [E Es]]];
      rewrite E; cbn [bind fst snd]; [reflexivity|now rewrite Es].
Qed.

Lemma main_rejected_count_line_witness :
  main decimal_int 5 ["1"; "a,b"; "9"; "a/b"] = ([], Some ValueError).
Proof.
  apply (main_rejected_count_line decimal_int 5
           ["1"; "a,b"; "9"; "a/b"] "1" ["a,b"; "9"; "a/b"]).
  - lia.
  - reflexivity.
  - right. exists 1%Z, "9", ["a/b"].
    repeat split; try reflexivity; try lia.
    right. exists 9%Z. split; [reflexivity|lia].
Defined.

(** X15. Lines after the declared number of path lines are not read: when
    the declared paths are all there, lines added at the end of the input
    change neither the output nor the outcome. *)
Theorem main_ignores_trailing_lines
    (int : string -> option Z) (maxint : Z) (stdin more : list string)
    (count_line : string) (after_count : list string) (P : Z)
    (count_line' : string) (path_lines : list string) (N : Z) :
  (1 <= maxint)%Z ->
  map (Str.rstrip newline) stdin = count_line :: after_count ->
  int count_line = Some P -> (0 <= P <= maxint)%Z ->
  skipn (Z.to_nat P) after_count = count_line' :: path_lines ->
  int count_line' = Some N -> (0 <= N <= maxint)%Z ->
  Z.to_nat N <= List.length path_lines ->
  main int maxint (stdin ++ more)%list = main int maxint stdin.
Proof.
  intros Hm Hin HP HPr Hsk HN HNr Hall.
  assert (HPlen : Z.to_nat P < List.length after_count).
  { destruct (Nat.lt_ge_cases (Z.to_nat P) (List.length after_count)) as [L|G];
      [exact L|]. rewrite (skipn_all2 after_count G) in Hsk. discriminate. }
  rewrite (main_reads int maxint stdin count_line after_count P
             count_line' path_lines N) by assumption.
  rewrite (main_reads int maxint (stdin ++ more)%list count_line
             (after_count ++ map (Str.rstrip newline) more)%list P
             count_line' (path_lines ++ map (Str.rstrip newline) more)%list N);
    try assumption.
  - rewrite !firstn_app.
    replace (Z.to_nat N - List.length path_lines) with 0 by lia.
    replace (Z.to_nat P - List.length after_count) with 0 by lia.
    cbn [firstn]. now rewrite !app_nil_r.
  - now rewrite map_app, Hin.
  - rewrite skipn_app, Hsk.
    replace (Z.to_nat P - List.length after_count) with 0 by lia.
    reflexivity.
Qed.

Lemma main_ignores_trailing_lines_witness :
  main decimal_int 2147483647 (["1"; "a,*"; "1"; "a/b"] ++ ["x/y"; "z"])%list
  = main decimal_int 2147483647 ["1"; "a,*"; "1"; "a/b"].
Proof.
  apply (main_ignores_trailing_lines decimal_int 2147483647
           ["1"; "a,*"; "1"; "a/b"] ["x/y"; "z"]
           "1" ["a,*"; "1"; "a/b"] 1 "1" ["a/b"] 1);
    try reflexivity; try lia.
Defined.

(** ** Empty paths *)

Lemma split_fields_of_run (d : ascii) (n : nat) :
  split_fields d (Str.rep d n) = [""].
Proof.
  unfold split_fields, Str.strip.
  rewrite <- (append_empty_r (Str.rep d n)), lstrip_rep. reflexivity.
Qed.

(** X16. An empty path, or one made of slashes only, has the single empty
    field.  A pattern that is empty or made of commas only matches it
    exactly, wherever it stands in the list, and [find_match] then returns
    the empty string. *)
Theorem find_match_empty_path (n m : nat) (l1 l2 : list string) :
  split_fields PATH_DELIMITER (Str.rep PATH_DELIMITER n) = [""]
  /\ find_match (Str.rep PATH_DELIMITER n)
       (l1 ++ Str.rep PATTERN_DELIMITER m :: l2)%list = Ok "".
Proof.
  split; [apply split_fields_of_run|].
  rewrite (find_match_exact (Str.rep PATH_DELIMITER n) _
             (Str.rep PATTERN_DELIMITER m)).
  - now rewrite split_fields_of_run.
  - apply in_or_app. right. now left.
  - now rewrite !split_fields_of_run.
Qed.
